(** * Chain and Group composite tasks (lib/chain_template.js, lib/group_template.js)

    A shallow embedding of the two composite task templates of the queue:
    their [prepare] step and their command handlers, which read task
    records from the store and submit one validate-then-exec transaction.

    - JSON values and the JavaScript operations the handlers apply to them;
    - the store (hashes, sets, sorted sets) and the transaction script;
    - handlers as programs over store calls, with the run of one worker on
      a world, the transactions a handler can submit under any replies, and
      the interleavings of several workers on one store;
    - the properties of the composite life cycle: locking, state moves,
      result feeding, completion, and the handlers that stop early;
    - further properties of the handlers: what each step writes and what it
      leaves alone, the counter of finished children, redelivery, events,
      and preparation. *)

From Stdlib Require Import ZArith String Ascii List Bool Lia.
From stdpp Require Import base option list strings gmap pretty.

Local Open Scope string_scope.
Local Open Scope Z_scope.

Set Warnings "-register-all".

(** ** JSON values *)

(** Numbers are restricted to integers: the handlers only count and add
    scores, and results are compared, never computed with. An object keeps
    its keys in insertion order; a key occurs once. *)
Inductive json : Type :=
| JNull
| JBool (b : bool)
| JNum (n : Z)
| JStr (s : string)
| JArr (items : list json)
| JObj (props : list (string * json)).

(** A JavaScript value read from a property: [None] is [undefined]. *)
Abbreviation jsval := (option json).

Fixpoint json_eqb (a b : json) {struct a} : bool :=
  match a, b with
  | JNull, JNull => true
  | JBool x, JBool y => Bool.eqb x y
  | JNum x, JNum y => Z.eqb x y
  | JStr x, JStr y => String.eqb x y
  | JArr xs, JArr ys =>
      (fix items_eqb (xs ys : list json) {struct xs} : bool :=
         match xs, ys with
         | [], [] => true
         | x :: xs', y :: ys' => json_eqb x y && items_eqb xs' ys'
         | _, _ => false
         end) xs ys
  | JObj xs, JObj ys =>
      (fix props_eqb (xs ys : list (string * json)) {struct xs} : bool :=
         match xs, ys with
         | [], [] => true
         | (k, x) :: xs', (k', y) :: ys' =>
             String.eqb k k' && json_eqb x y && props_eqb xs' ys'
         | _, _ => false
         end) xs ys
  | _, _ => false
  end.

(** [if (v)]: the values JavaScript treats as false. *)
Definition truthy (v : jsval) : bool :=
  match v with
  | None => false
  | Some JNull => false
  | Some (JBool b) => b
  | Some (JNum n) => negb (n =? 0)
  | Some (JStr s) => negb (String.eqb s "")
  | Some (JArr _) => true
  | Some (JObj _) => true
  end.

Definition truthy_string (s : string) : bool := negb (String.eqb s "").

Fixpoint assoc (k : string) (props : list (string * json)) : jsval :=
  match props with
  | [] => None
  | (k', v) :: rest => if String.eqb k k' then Some v else assoc k rest
  end.

Definition join (sep : string) (parts : list string) : string :=
  String.concat sep parts.

(** [String(v)], as a template literal or [String.prototype.concat]
    applies it. Inside an array [null] prints as the empty string. *)
Fixpoint ToString (v : json) : string :=
  match v with
  | JNull => "null"
  | JBool b => if b then "true" else "false"
  | JNum n => pretty n
  | JStr s => s
  | JArr items =>
      join "," (map (fun x => match x with JNull => "" | _ => ToString x end) items)
  | JObj _ => "[object Object]"
  end.

Definition ToString_val (v : jsval) : string :=
  match v with
  | None => "undefined"
  | Some x => ToString x
  end.

(** *** JSON.stringify *)

Definition hex_digit (n : N) : ascii :=
  match n with
  | 0 => "0" | 1 => "1" | 2 => "2" | 3 => "3" | 4 => "4" | 5 => "5" | 6 => "6"
  | 7 => "7" | 8 => "8" | 9 => "9" | 10 => "a" | 11 => "b" | 12 => "c"
  | 13 => "d" | 14 => "e" | _ => "f"
  end%N%char.

Definition dquote : ascii := ascii_of_N 34.

Definition escape_char (c : ascii) : string :=
  let n := N_of_ascii c in
  if (n =? 34)%N then String "\"%char (String dquote "")
  else if (n =? 92)%N then "\\"
  else if (n =? 8)%N then "\b"
  else if (n =? 12)%N then "\f"
  else if (n =? 10)%N then "\n"
  else if (n =? 13)%N then "\r"
  else if (n =? 9)%N then "\t"
  else if (n <? 32)%N then
    "\u00" ++ String (hex_digit (n / 16)) (String (hex_digit (n mod 16)) "")
  else String c "".

Fixpoint escape (s : string) : string :=
  match s with
  | EmptyString => ""
  | String c rest => escape_char c ++ escape rest
  end.

Definition quote (s : string) : string :=
  String dquote (escape s ++ String dquote "").

Fixpoint JSON_stringify (v : json) : string :=
  match v with
  | JNull => "null"
  | JBool b => if b then "true" else "false"
  | JNum n => pretty n
  | JStr s => quote s
  | JArr items => "[" ++ join "," (map JSON_stringify items) ++ "]"
  | JObj props =>
      "{" ++ join ","
        (map (fun kv => quote (fst kv) ++ ":" ++ JSON_stringify (snd kv)) props)
      ++ "}"
  end.

(** What a handler can throw: a TypeError or an Error of its own, or the
    error reply of the store. *)
Inductive JsError : Type :=
| TypeError (msg : string)
| Error (msg : string)
| ReplyError (msg : string).

(** [childArgs.concat([ item ])]: an array gets one more element, a string
    is extended by the text of the one-element array, anything else has no
    [concat] method. *)
Definition concat_one (target item : json) : JsError + json :=
  match target with
  | JArr items => inr (JArr (items ++ [item]))
  | JStr s => inr (JStr (s ++ ToString (JArr [item])))
  | JNull => inl (TypeError "Cannot read properties of null (reading 'concat')")
  | _ => inl (TypeError "childArgs.concat is not a function")
  end.

(** ** The store *)

(** A hash field holds the JSON text of a value; the model keeps the value
    (JSON.parse after JSON.stringify gives the value back). Sets hold task
    ids, sorted sets map a member to its score. *)
Record Store : Type := {
  hashes : gmap string (gmap string json);
  sets : gmap string (gset string);
  zsets : gmap string (gmap string Z)
}.

Definition empty_store : Store :=
  {| hashes := ∅; sets := ∅; zsets := ∅ |}.

Inductive RedisCmd : Type :=
| zrem (key member : string)
| hget (key field : string)
| srem (key member : string)
| sadd (key member : string)
| hset (key field : string) (value : json)
| zadd (key : string) (score : Z) (member : string)
| hincrby (key field : string) (delta : Z).

Inductive Reply : Type :=
| RInt (n : Z)
| RBulk (v : jsval).

Definition reply_eqb (a b : Reply) : bool :=
  match a, b with
  | RInt x, RInt y => x =? y
  | RBulk None, RBulk None => true
  | RBulk (Some x), RBulk (Some y) => json_eqb x y
  | _, _ => false
  end.

Definition hash_at (s : Store) (key : string) : gmap string json :=
  default ∅ (hashes s !! key).

Definition set_at (s : Store) (key : string) : gset string :=
  default ∅ (sets s !! key).

Definition zset_at (s : Store) (key : string) : gmap string Z :=
  default ∅ (zsets s !! key).

Definition in_zset (s : Store) (key member : string) : bool :=
  bool_decide (is_Some (zset_at s key !! member)).

Definition field_at (s : Store) (key field : string) : jsval :=
  hashes s !! key ≫= (.!! field).

Definition with_hashes (s : Store) (h : gmap string (gmap string json)) : Store :=
  {| hashes := h; sets := sets s; zsets := zsets s |}.

Definition with_sets (s : Store) (x : gmap string (gset string)) : Store :=
  {| hashes := hashes s; sets := x; zsets := zsets s |}.

Definition with_zsets (s : Store) (z : gmap string (gmap string Z)) : Store :=
  {| hashes := hashes s; sets := sets s; zsets := z |}.

Definition count (b : bool) : Z := if b then 1 else 0.

(** One store command: its reply and the store after it; [None] is an error
    reply (an increment of a field that holds no integer). *)
Definition redis_call (c : RedisCmd) (s : Store) : option (Reply * Store) :=
  match c with
  | zrem key member =>
      Some (RInt (count (in_zset s key member)),
            with_zsets s (<[key := delete member (zset_at s key)]> (zsets s)))
  | hget key field => Some (RBulk (field_at s key field), s)
  | srem key member =>
      Some (RInt (count (bool_decide (member ∈ set_at s key))),
            with_sets s (<[key := set_at s key ∖ {[member]}]> (sets s)))
  | sadd key member =>
      Some (RInt (count (negb (bool_decide (member ∈ set_at s key)))),
            with_sets s (<[key := {[member]} ∪ set_at s key]> (sets s)))
  | hset key field value =>
      Some (RInt (count (negb (bool_decide (is_Some (field_at s key field))))),
            with_hashes s (<[key := <[field := value]> (hash_at s key)]> (hashes s)))
  | zadd key score member =>
      Some (RInt (count (negb (in_zset s key member))),
            with_zsets s (<[key := <[member := score]> (zset_at s key)]> (zsets s)))
  | hincrby key field delta =>
      match field_at s key field with
      | None =>
          Some (RInt delta,
                with_hashes s (<[key := <[field := JNum delta]> (hash_at s key)]> (hashes s)))
      | Some (JNum n) =>
          Some (RInt (n + delta),
                with_hashes s (<[key := <[field := JNum (n + delta)]> (hash_at s key)]> (hashes s)))
      | Some _ => None
      end
  end.

(** ** Transactions *)

Record Transaction : Type := {
  validate : list (Reply * RedisCmd);
  exec : list RedisCmd
}.

Definition push_exec (t : Transaction) (c : RedisCmd) : Transaction :=
  {| validate := validate t; exec := exec t ++ [c] |}.

Inductive EvalReply : Type :=
| Committed
| Rejected
| ScriptError.

Fixpoint run_validate (checks : list (Reply * RedisCmd)) (s : Store)
  : EvalReply * Store :=
  match checks with
  | [] => (Committed, s)
  | (expected, c) :: rest =>
      match redis_call c s with
      | None => (ScriptError, s)
      | Some (r, s') =>
          if reply_eqb expected r then run_validate rest s' else (Rejected, s')
      end
  end.

Fixpoint run_exec (cmds : list RedisCmd) (s : Store) : EvalReply * Store :=
  match cmds with
  | [] => (Committed, s)
  | c :: rest =>
      match redis_call c s with
      | None => (ScriptError, s)
      | Some (_, s') => run_exec rest s'
      end
  end.

(** Modelled from the spec: the transaction script of the store adapter
    (the queue's [__scripts__.transaction], not part of these files). Each
    validate entry is run in order and its reply compared with the expected
    value under JSON equality; when all match every exec entry is run in
    order and the script returns 1 ([Committed]); otherwise it returns 0
    ([Rejected]) and performs nothing. The transaction is atomic: all of it
    happens or none, also when a store command replies with an error. *)
Definition eval_transaction (t : Transaction) (s : Store) : EvalReply * Store :=
  match run_validate (validate t) s with
  | (Committed, s1) =>
      match run_exec (exec t) s1 with
      | (Committed, s2) => (Committed, s2)
      | (r, _) => (r, s)
      end
  | (r, _) => (r, s)
  end.

(** ** Tasks, commands, events *)

Record Queue : Type := { __prefix__ : string }.

(** The fields of a composite task object the handlers read ([this]). *)
Record Task : Type := {
  queue : Queue;
  task_id : string;
  uid : string;
  pool : string;
  name : string;
  removeDelay : Z;
  total : Z;
  parent : option string;
  parent_pool : string;
  parent_uid : string;
  children : list string;
  children_finished : nat;
  result : jsval;
  user_data : jsval
}.

(** What [__getRawTask__] hands back for a record that exists. *)
Record RawTask : Type := {
  raw_id : string;
  raw_uid : string;
  raw_pool : string;
  raw_result : jsval
}.

Record Command : Type := {
  to : string;
  to_uid : string;
  type : string;
  data : jsval
}.

(** An object literal as JSON.stringify prints it: a property whose value
    is [undefined] is left out. *)
Definition object_of (fields : list (string * jsval)) : json :=
  JObj (omap (fun kv => match snd kv with
                        | Some v => Some (fst kv, v)
                        | None => None
                        end) fields).

(** An array as JSON.stringify prints it: [undefined] becomes [null]. *)
Definition array_of (items : list jsval) : json :=
  JArr (map (default JNull) items).

(** Modelled from the spec: the canonical form of a command ([toJSON] of
    lib/command.js, not part of these files): a stable JSON serialization
    with a fixed key order, [data] left out when absent. *)
Definition toJSON (c : Command) : string :=
  JSON_stringify
    (object_of [ ("to", Some (JStr (to c)));
                 ("to_uid", Some (JStr (to_uid c)));
                 ("type", Some (JStr (type c)));
                 ("data", data c) ]).

(** [command.data.result]: reading a property of [undefined] or [null]
    throws; a primitive or an array has no such property. *)
Definition data_result (command : Command) : JsError + jsval :=
  match data command with
  | None => inl (TypeError "Cannot read properties of undefined (reading 'result')")
  | Some JNull => inl (TypeError "Cannot read properties of null (reading 'result')")
  | Some (JObj props) => inr (assoc "result" props)
  | Some _ => inr None
  end.

Record QueueError : Type := {
  err_message : string;
  err_task : string;
  err_state : string;
  err_task_id : string;
  err_user_data : jsval
}.

(** Modelled from the spec: the JSON-serialized error object (lib/error.js
    and the serialize-error package are not part of these files); the stack
    trace is left out. *)
Definition serializeError (e : QueueError) : json :=
  object_of [ ("name", Some (JStr "QueueError"));
              ("message", Some (JStr (err_message e)));
              ("taskName", Some (JStr (err_task e)));
              ("state", Some (JStr (err_state e)));
              ("id", Some (JStr (err_task_id e)));
              ("user_data", err_user_data e) ].

Inductive EventData : Type :=
| ErrorData (e : QueueError)
| EndData (id uid : string).

Record Event : Type := { ev_name : string; ev_data : EventData }.

(** ** Handlers as programs over store calls

    A handler suspends at every store call; what it does next depends on
    the reply only. [Prog A] is the tree of those calls. *)

Inductive Prog (A : Type) : Type :=
| Ret (a : A)
| Throw (e : JsError)
| Emit (ev : Event) (k : Prog A)
| TimeAsync (k : Z → Prog A)
| GetRawTask (q : Queue) (id : string) (k : option RawTask → Prog A)
| GetRawTasks (q : Queue) (ids : list string) (k : list (option RawTask) → Prog A)
| HgetAsync (key field : string) (k : jsval → Prog A)
| EvalAsync (t : Transaction) (k : bool → Prog A).

Arguments Ret {A} a.
Arguments Throw {A} e.
Arguments Emit {A} ev k.
Arguments TimeAsync {A} k.
Arguments GetRawTask {A} q id k.
Arguments GetRawTasks {A} q ids k.
Arguments HgetAsync {A} key field k.
Arguments EvalAsync {A} t k.

Fixpoint bind {A B : Type} (p : Prog A) (f : A → Prog B) : Prog B :=
  match p with
  | Ret a => f a
  | Throw e => Throw e
  | Emit ev k => Emit ev (bind k f)
  | TimeAsync k => TimeAsync (fun r => bind (k r) f)
  | GetRawTask q id k => GetRawTask q id (fun r => bind (k r) f)
  | GetRawTasks q ids k => GetRawTasks q ids (fun r => bind (k r) f)
  | HgetAsync key field k => HgetAsync key field (fun r => bind (k r) f)
  | EvalAsync t k => EvalAsync t (fun r => bind (k r) f)
  end.

#[global] Instance prog_ret : MRet Prog := @Ret.

#[global] Instance prog_bind : MBind Prog := fun A B f p => bind p f.

Definition emit (name : string) (d : EventData) : Prog unit :=
  Emit {| ev_name := name; ev_data := d |} (Ret tt).

Definition timeAsync : Prog Z := TimeAsync Ret.

Definition getRawTask (q : Queue) (id : string) : Prog (option RawTask) :=
  GetRawTask q id Ret.

Definition getRawTasks (q : Queue) (ids : list string)
  : Prog (list (option RawTask)) := GetRawTasks q ids Ret.

Definition hgetAsync (key field : string) : Prog jsval := HgetAsync key field Ret.

Definition evalAsync (t : Transaction) : Prog bool := EvalAsync t Ret.

(** A synchronous step that may throw. *)
Definition attempt {A : Type} (r : JsError + A) : Prog A :=
  match r with
  | inl e => Throw e
  | inr a => Ret a
  end.

(** [JSON.parse] of a hash field: a missing field reads as [null]. *)
Definition JSON_parse (field : jsval) : json := default JNull field.

(** [list[i]] on a list of ids; out of range the id prints as undefined. *)
Definition at_index (l : list string) (i : nat) : string :=
  default "undefined" (l !! i).

(** *** One worker running a handler to its end

    [run] answers every call from the store of the world, with no other
    worker in between; the world keeps the events emitted and the calls
    made. *)

Inductive StoreCall : Type :=
| CallTime
| CallGetRawTask (q : Queue) (id : string)
| CallGetRawTasks (q : Queue) (ids : list string)
| CallHget (key field : string)
| CallEval (t : Transaction).

Record World : Type := {
  w_store : Store;
  w_now : Z;
  w_events : list Event;
  w_calls : list StoreCall
}.

Definition called (w : World) (c : StoreCall) : World :=
  {| w_store := w_store w; w_now := w_now w; w_events := w_events w;
     w_calls := w_calls w ++ [c] |}.

Definition emitted (w : World) (ev : Event) : World :=
  {| w_store := w_store w; w_now := w_now w; w_events := w_events w ++ [ev];
     w_calls := w_calls w |}.

Definition stored (w : World) (s : Store) : World :=
  {| w_store := s; w_now := w_now w; w_events := w_events w;
     w_calls := w_calls w |}.

(** Modelled from the spec: [getTask(id)] of the store adapter (the queue's
    [__getRawTask__], not part of these files): the record under
    [prefix ++ id] with its id, or null when there is none. [pool] and [uid]
    are strings in a task record; any other value is read as its text. *)
Definition read_raw_task (s : Store) (q : Queue) (id : string) : option RawTask :=
  (fun h : gmap string json =>
     {| raw_id := id;
        raw_uid := ToString_val (h !! "uid");
        raw_pool := ToString_val (h !! "pool");
        raw_result := h !! "result" |}) <$> hashes s !! (__prefix__ q ++ id).

(** Modelled from the spec: [getTasks(ids)], aligned with [ids], null for
    absent entries. *)
Definition read_raw_tasks (s : Store) (q : Queue) (ids : list string)
  : list (option RawTask) := map (read_raw_task s q) ids.

Fixpoint run {A : Type} (p : Prog A) (w : World) : (JsError + A) * World :=
  match p with
  | Ret a => (inr a, w)
  | Throw e => (inl e, w)
  | Emit ev k => run k (emitted w ev)
  | TimeAsync k => run (k (w_now w)) (called w CallTime)
  | GetRawTask q id k =>
      run (k (read_raw_task (w_store w) q id)) (called w (CallGetRawTask q id))
  | GetRawTasks q ids k =>
      run (k (read_raw_tasks (w_store w) q ids)) (called w (CallGetRawTasks q ids))
  | HgetAsync key field k =>
      run (k (field_at (w_store w) key field)) (called w (CallHget key field))
  | EvalAsync t k =>
      let w' := called w (CallEval t) in
      match eval_transaction t (w_store w) with
      | (Committed, s) => run (k true) (stored w' s)
      | (Rejected, s) => run (k false) (stored w' s)
      | (ScriptError, s) =>
          (inl (ReplyError "ERR hash value is not an integer"), stored w' s)
      end
  end.

(** The transactions a handler can submit, whatever the store replies at
    each call. *)
Inductive submits {A : Type} : Prog A → Transaction → Prop :=
| submits_now t k : submits (EvalAsync t k) t
| submits_after_eval t k b t' : submits (k b) t' → submits (EvalAsync t k) t'
| submits_after_emit ev k t : submits k t → submits (Emit ev k) t
| submits_after_time k r t : submits (k r) t → submits (TimeAsync k) t
| submits_after_task q id k r t : submits (k r) t → submits (GetRawTask q id k) t
| submits_after_tasks q ids k r t : submits (k r) t → submits (GetRawTasks q ids k) t
| submits_after_hget key field k r t : submits (k r) t → submits (HgetAsync key field k) t.

(** ** Preparation (shared shape of both templates) *)

(** A child task object handed to a composite: awaiting it runs its own
    preparation, which settles with the prepared task or a rejection. *)
Record ChildTemplate : Type := { prepared : JsError + Task }.

(** A composite under construction: the serializable fields and the
    temporary child store of the constructor. *)
Record Template : Type := {
  self : Task;
  __children_to_init__ : list ChildTemplate
}.

(** The first constructor argument: a non-empty array that starts with a
    task object, or anything else (kept as a plain argument). *)
Inductive FirstArg : Type :=
| TaskList (first : ChildTemplate) (rest : list ChildTemplate)
| OtherArg (v : jsval).

Definition construct (base : Task) (arg0 : FirstArg) : Template :=
  {| self := base;
     __children_to_init__ :=
       match arg0 with
       | TaskList first rest => first :: rest
       | OtherArg _ => []
       end |}.

(** [Promise.all] over the children: the prepared tasks, or the first
    rejection in list order. *)
Fixpoint Promise_all (cs : list ChildTemplate) : JsError + list Task :=
  match cs with
  | [] => inr []
  | c :: rest =>
      match prepared c with
      | inl e => inl e
      | inr t =>
          match Promise_all rest with
          | inl e => inl e
          | inr ts => inr (t :: ts)
          end
      end
  end.

(** Modelled from the spec: [setParent] of the base template stamps
    [parent], [parent_pool] and [parent_uid] onto the child. *)
Definition setParent (t this : Task) : Task :=
  {| queue := queue t; task_id := task_id t; uid := uid t; pool := pool t;
     name := name t; removeDelay := removeDelay t; total := total t;
     parent := Some (task_id this); parent_pool := pool this;
     parent_uid := uid this;
     children := children t; children_finished := children_finished t;
     result := result t; user_data := user_data t |}.

Definition with_id (this : Task) (id : string) : Task :=
  {| queue := queue this; task_id := id; uid := uid this; pool := pool this;
     name := name this; removeDelay := removeDelay this; total := total this;
     parent := parent this; parent_pool := parent_pool this;
     parent_uid := parent_uid this;
     children := children this; children_finished := children_finished this;
     result := result this; user_data := user_data this |}.

(** [this.children = ids; this.children_finished = 0; this.total = sum]
    and, for a group, [this.result = []]. *)
Definition with_children (this : Task) (ids : list string) (sum : Z)
    (res : jsval) : Task :=
  {| queue := queue this; task_id := task_id this; uid := uid this;
     pool := pool this; name := name this; removeDelay := removeDelay this;
     total := sum;
     parent := parent this; parent_pool := parent_pool this;
     parent_uid := parent_uid this;
     children := ids; children_finished := 0%nat;
     result := res; user_data := user_data this |}.

(** [2^53]: up to it every integer is a double. *)
Definition two53 : Z := 9007199254740992.

(** The double nearest to an integer, ties to the even significand: an
    integer of magnitude up to [2^53] is a double; beyond, doubles are
    [2^(log2 |z| - 52)] apart. (A magnitude past the largest double, which
    JavaScript rounds to [Infinity], is not a value of the model.) *)
Definition round_double (z : Z) : Z :=
  let a := Z.abs z in
  if a <=? two53 then z
  else
    let ulp := 2 ^ (Z.log2 a - 52) in
    let q := a / ulp in
    let r := a mod ulp in
    let q' := if 2 * r <? ulp then q
              else if ulp <? 2 * r then q + 1
              else if Z.even q then q else q + 1 in
    Z.sgn z * (q' * ulp).

(** [a + b] on numbers: the exact sum, rounded to a double. *)
Definition js_add (a b : Z) : Z := round_double (a + b).

(** [this.total = 0] and then [this.total += t.total] for each child, in
    the order of the list. *)
Definition sum_totals (ts : list Task) : Z :=
  fold_left (fun acc t => js_add acc (total t)) ts 0.

(** The integers on which arithmetic on doubles is exact
    ([Number.isSafeInteger]). *)
Definition safe_integer (z : Z) : Prop := - two53 < z < two53.

(** The exact sums [t1.total], [t1.total + t2.total], ... *)
Fixpoint totals_from (acc : Z) (ts : list Task) : list Z :=
  match ts with
  | [] => []
  | t :: rest => (acc + total t) :: totals_from (acc + total t) rest
  end.

Definition running_totals (ts : list Task) : list Z := totals_from 0 ts.

(** ** What the handlers of both templates share *)

(** [if (this.parent)]: the parent id is set and is not the empty string. *)
Definition has_parent (this : Task) : bool :=
  match parent this with
  | Some p => truthy_string p
  | None => false
  end.

(** The first validate entry: the command is removed from the locked
    commands of the task's pool, and one member must have been removed. *)
Definition lock_check (this : Task) (command : Command) : Reply * RedisCmd :=
  (RInt 1,
   zrem (__prefix__ (queue this) ++ pool this ++ ":commands_locked") (toJSON command)).

(** The second validate entry: the persisted state is [st]. *)
Definition state_check (this : Task) (st : string) : Reply * RedisCmd :=
  (RBulk (Some (JStr st)), hget (__prefix__ (queue this) ++ task_id this) "state").

(** ** Chain *)

Module ChainTemplate.

(** [taskID] is the id the base template generates; [init] is what the
    [init()] hook settles with: an array of children ([Some]), any other
    value ([None]), or a throw. *)
Definition prepare (this : Template) (taskID : string)
    (init : JsError + option (list ChildTemplate)) : Prog (Task * list Task) :=
  let me := with_id (self this) taskID in
  _children ← attempt init;
  let to_init := match _children with
                 | Some l => l
                 | None => __children_to_init__ this
                 end in
  if (length to_init =? 0)%nat then
    Throw (Error "ido error: you should specify chain children")
  else
    ts ← attempt (Promise_all to_init);
    let me' := with_children me (map task_id ts) (sum_totals ts) (result me) in
    mret (me', map (fun t => setParent t me') ts).

(** Handle the [activate] command: move the chain from [waiting] to [idle]
    and send [activate] to the first child. *)
Definition handleCommand_activate (this : Task) (command : Command) : Prog unit :=
  let prefix := __prefix__ (queue this) in
  time ← timeAsync;
  rawChild ← getRawTask (queue this) (at_index (children this) 0);
  let transaction :=
    {| validate :=
         [ lock_check this command; state_check this "waiting" ];
       exec :=
         [ srem (prefix ++ "waiting") (task_id this);
           sadd (prefix ++ "idle") (task_id this);
           hset (prefix ++ task_id this) "state" (JStr "idle") ] |} in
  let transaction :=
    match rawChild with
    | Some rawChild =>
        push_exec transaction
          (zadd (prefix ++ raw_pool rawChild ++ ":commands") time
             (toJSON {| to := raw_id rawChild; to_uid := raw_uid rawChild;
                        type := "activate"; data := None |}))
    | None => transaction
    end in
  _ ← evalAsync transaction;
  mret tt.

(** Handle a child's result: run the next child, with the result merged
    into its args, or finish the chain. *)
Definition handleCommand_result (this : Task) (command : Command) : Prog unit :=
  let prefix := __prefix__ (queue this) in
  time ← timeAsync;
  if (children_finished this + 1 <? length (children this))%nat then
    let childID := at_index (children this) (children_finished this + 1) in
    rawChild ← getRawTask (queue this) childID;
    let transaction :=
      {| validate :=
           [ lock_check this command; state_check this "idle" ];
         exec := [ hincrby (prefix ++ task_id this) "children_finished" 1 ] |} in
    let transaction :=
      match rawChild with
      | Some rawChild =>
          push_exec transaction
            (zadd (prefix ++ raw_pool rawChild ++ ":commands") time
               (toJSON {| to := childID; to_uid := raw_uid rawChild;
                          type := "activate"; data := None |}))
      | None => transaction
      end in
    res ← attempt (data_result command);
    transaction ←
      (if truthy res then
         field ← hgetAsync (prefix ++ childID) "args";
         let childArgs := JSON_parse field in
         newArgs ← attempt (concat_one childArgs (default JNull res));
         mret (push_exec transaction (hset (prefix ++ childID) "args" newArgs))
       else mret transaction);
    _ ← evalAsync transaction;
    mret tt
  else
    let transaction :=
      {| validate :=
           [ lock_check this command; state_check this "idle" ];
         exec :=
           [ hincrby (prefix ++ task_id this) "children_finished" 1;
             srem (prefix ++ "idle") (task_id this);
             zadd (prefix ++ "finished") (removeDelay this + time) (task_id this);
             hset (prefix ++ task_id this) "state" (JStr "finished");
             hset (prefix ++ task_id this) "progress" (JNum (total this)) ] |} in
    res ← attempt (data_result command);
    let transaction :=
      match res with
      | Some r => push_exec transaction (hset (prefix ++ task_id this) "result" r)
      | None => transaction
      end in
    let transaction :=
      if has_parent this then
        push_exec transaction
          (zadd (prefix ++ parent_pool this ++ ":commands") time
             (toJSON {| to := default "" (parent this); to_uid := parent_uid this;
                        type := "result";
                        data := Some (object_of [ ("id", Some (JStr (task_id this)));
                                                  ("result", res) ]) |}))
      else transaction in
    success ← evalAsync transaction;
    if success : bool then
      _ ← emit "task:end" (EndData (task_id this) (uid this));
      _ ← emit ("task:end:" ++ task_id this) (EndData (task_id this) (uid this));
      mret tt
    else mret tt.

End ChainTemplate.

(** ** Group *)

Module GroupTemplate.

Definition prepare (this : Template) (taskID : string)
    (init : JsError + option (list ChildTemplate)) : Prog (Task * list Task) :=
  let me := with_id (self this) taskID in
  _children ← attempt init;
  let to_init := match _children with
                 | Some l => l
                 | None => __children_to_init__ this
                 end in
  if (length to_init =? 0)%nat then
    Throw (Error "Queue error: you should specify group children")
  else
    ts ← attempt (Promise_all to_init);
    let me' := with_children me (map task_id ts) (sum_totals ts) (Some (JArr [])) in
    mret (me', map (fun t => setParent t me') ts).

(** The loop over [i < this.children.length]: a missing or null entry of
    [rawChildren] is skipped. *)
Fixpoint activate_children (prefix : string) (time : Z)
    (rawChildren : list (option RawTask)) (i n : nat) (transaction : Transaction)
  : Transaction :=
  match n with
  | O => transaction
  | S n' =>
      let transaction :=
        match mjoin (rawChildren !! i) with
        | Some rawChild =>
            push_exec transaction
              (zadd (prefix ++ raw_pool rawChild ++ ":commands") time
                 (toJSON {| to := raw_id rawChild; to_uid := raw_uid rawChild;
                            type := "activate"; data := None |}))
        | None => transaction
        end in
      activate_children prefix time rawChildren (S i) n' transaction
  end.

(** Handle the [activate] command: move the group from [waiting] to [idle]
    and send [activate] to all children. *)
Definition handleCommand_activate (this : Task) (command : Command) : Prog unit :=
  let prefix := __prefix__ (queue this) in
  time ← timeAsync;
  let transaction :=
    {| validate := [ lock_check this command; state_check this "waiting" ];
       exec :=
         [ srem (prefix ++ "waiting") (task_id this);
           sadd (prefix ++ "idle") (task_id this);
           hset (prefix ++ task_id this) "state" (JStr "idle") ] |} in
  rawChildren ← getRawTasks (queue this) (children this);
  let transaction :=
    activate_children prefix time rawChildren 0 (length (children this)) transaction in
  _ ← evalAsync transaction;
  mret tt.

(** Handle a child's result: increment [children_finished] and send
    [group_check] to the group itself. *)
Definition handleCommand_result (this : Task) (command : Command) : Prog unit :=
  let prefix := __prefix__ (queue this) in
  time ← timeAsync;
  _ ← evalAsync
    {| validate := [ lock_check this command; state_check this "idle" ];
       exec :=
         [ hincrby (prefix ++ task_id this) "children_finished" 1;
           zadd (prefix ++ pool this ++ ":commands") time
             (toJSON {| to := task_id this; to_uid := uid this;
                        type := "group_check"; data := None |}) ] |};
  mret tt.

Definition children_deleted (this : Task) : QueueError :=
  {| err_message := "Group error: terminating task because children deleted";
     err_task := name this;
     err_state := "idle";
     err_task_id := task_id this;
     err_user_data := user_data this |}.

Definition is_null (child : option RawTask) : bool :=
  match child with
  | None => true
  | Some _ => false
  end.

(** Check whether the group has finished: skip while children are
    outstanding; finish with an error when a child was deleted; else save
    the array of the children's results and tell the parent. *)
Definition handleCommand_group_check (this : Task) (command : Command) : Prog unit :=
  if (children_finished this <? length (children this))%nat then mret tt
  else
    let prefix := __prefix__ (queue this) in
    time ← timeAsync;
    let transaction :=
      {| validate := [ lock_check this command; state_check this "idle" ];
         exec :=
           [ srem (prefix ++ "idle") (task_id this);
             zadd (prefix ++ "finished") (removeDelay this + time) (task_id this);
             hset (prefix ++ task_id this) "state" (JStr "finished") ] |} in
    rawChildren ← getRawTasks (queue this) (children this);
    if existsb is_null rawChildren then
      let err := children_deleted this in
      _ ← emit "error" (ErrorData err);
      let transaction :=
        if has_parent this then
          push_exec transaction
            (zadd (prefix ++ parent_pool this ++ ":commands") time
               (toJSON {| to := default "" (parent this); to_uid := parent_uid this;
                          type := "error";
                          data := Some (object_of [ ("error", Some (serializeError err)) ]) |}))
        else transaction in
      let transaction :=
        push_exec transaction (hset (prefix ++ task_id this) "error" (serializeError err)) in
      success ← evalAsync transaction;
      if success : bool then
        _ ← emit "task:end" (EndData (task_id this) (uid this));
        _ ← emit ("task:end:" ++ task_id this) (EndData (task_id this) (uid this));
        mret tt
      else mret tt
    else
      let result := array_of (map (fun child => child ≫= raw_result) rawChildren) in
      let transaction :=
        push_exec transaction (hset (prefix ++ task_id this) "progress" (JNum (total this))) in
      let transaction :=
        push_exec transaction (hset (prefix ++ task_id this) "result" result) in
      let transaction :=
        if has_parent this then
          push_exec transaction
            (zadd (prefix ++ parent_pool this ++ ":commands") time
               (toJSON {| to := default "" (parent this); to_uid := parent_uid this;
                          type := "result";
                          data := Some (object_of [ ("id", Some (JStr (task_id this)));
                                                    ("result", Some result) ]) |}))
        else transaction in
      success ← evalAsync transaction;
      if success : bool then
        _ ← emit "task:end" (EndData (task_id this) (uid this));
        _ ← emit ("task:end:" ++ task_id this) (EndData (task_id this) (uid this));
        mret tt
      else mret tt.

End GroupTemplate.

(** * Vocabulary of the properties *)

(** ** Keys *)

Fixpoint chars (s : string) : list ascii :=
  match s with
  | EmptyString => []
  | String c rest => c :: chars rest
  end.

(** A sorted set of locked commands is never one of the keys a handler adds
    to: those end in [:commands] or in [finished]. *)
Definition lock_key (key : string) : Prop :=
  ∃ a, key = a ++ ":commands_locked".

Definition record_key (this : Task) : string :=
  __prefix__ (queue this) ++ task_id this.

(** ** What one store command does to a field and to a sorted set *)

Definition score_at (s : Store) (key member : string) : option Z :=
  zset_at s key !! member.

Definition field_step (c : RedisCmd) (F : string → string → jsval)
  : string → string → jsval :=
  fun k f =>
    match c with
    | hset k0 f0 v => if decide (k0 = k ∧ f0 = f) then Some v else F k f
    | hincrby k0 f0 d =>
        if decide (k0 = k ∧ f0 = f) then
          match F k f with
          | Some (JNum n) => Some (JNum (n + d))
          | _ => Some (JNum d)
          end
        else F k f
    | _ => F k f
    end.

Definition score_step (c : RedisCmd) (Z0 : string → string → option Z)
  : string → string → option Z :=
  fun k m =>
    match c with
    | zrem k0 m0 => if decide (k0 = k ∧ m0 = m) then None else Z0 k m
    | zadd k0 sc m0 => if decide (k0 = k ∧ m0 = m) then Some sc else Z0 k m
    | _ => Z0 k m
    end.

Definition fields_after (cmds : list RedisCmd) (F : string → string → jsval)
  : string → string → jsval :=
  fold_left (fun F c => field_step c F) cmds F.

Definition scores_after (cmds : list RedisCmd) (Z0 : string → string → option Z)
  : string → string → option Z :=
  fold_left (fun Z0 c => score_step c Z0) cmds Z0.

(** The first exec entry can be run: it is no increment, or the counter it
    increments is absent or holds a number. *)
Definition can_start (cmds : list RedisCmd) (s : Store) : Prop :=
  match cmds with
  | hincrby k f _ :: _ => field_at s k f = None ∨ ∃ n, field_at s k f = Some (JNum n)
  | _ => True
  end.

(** ** Every transaction a program can submit *)

Fixpoint always {A : Type} (P : Transaction → Prop) (p : Prog A) : Prop :=
  match p with
  | Ret _ => True
  | Throw _ => True
  | Emit _ k => always P k
  | TimeAsync k => ∀ r, always P (k r)
  | GetRawTask _ _ k => ∀ r, always P (k r)
  | GetRawTasks _ _ k => ∀ r, always P (k r)
  | HgetAsync _ _ k => ∀ r, always P (k r)
  | EvalAsync t k => P t ∧ ∀ b, always P (k b)
  end.

(** ** The shape of a composite's transaction *)

(** What an exec entry of a composite may do: it never removes from a
    sorted set, never adds to a set of locked commands, and writes the
    [state] field of its own record only, one step past the validated
    state. *)
Definition cmd_ok (this : Task) (st : string) (c : RedisCmd) : Prop :=
  match c with
  | zrem _ _ => False
  | zadd key _ _ => ¬ lock_key key
  | hset k f v =>
      f = "state" →
      k = record_key this ∧
      ((st = "waiting" ∧ v = JStr "idle") ∨ (st = "idle" ∧ v = JStr "finished"))
  | hincrby _ f _ => f ≠ "state"
  | _ => True
  end.

Definition no_incr (c : RedisCmd) : Prop :=
  match c with
  | hincrby _ _ _ => False
  | _ => True
  end.

Definition is_state_write (k : string) (c : RedisCmd) : bool :=
  match c with
  | hset k0 f _ => bool_decide (k0 = k ∧ f = "state")
  | _ => false
  end.

Definition writes_state (k : string) (t : Transaction) : bool :=
  existsb (is_state_write k) (exec t).

(** The validate block is the lock check and the check of state [st]; a
    transaction that validates [waiting] writes the state. *)
Definition composite_shape (this : Task) (command : Command) (st : string)
    (t : Transaction) : Prop :=
  validate t = [ lock_check this command; state_check this st ] ∧
  Forall (cmd_ok this st) (exec t) ∧
  (st = "waiting" → writes_state (record_key this) t = true).

(** The five handlers of the two composites, each with the state its
    transactions validate. *)
Inductive handler : Task → Command → string → Prog unit → Prop :=
| chain_activate this command :
    handler this command "waiting" (ChainTemplate.handleCommand_activate this command)
| chain_result this command :
    handler this command "idle" (ChainTemplate.handleCommand_result this command)
| group_activate this command :
    handler this command "waiting" (GroupTemplate.handleCommand_activate this command)
| group_result this command :
    handler this command "idle" (GroupTemplate.handleCommand_result this command)
| group_group_check this command :
    handler this command "idle" (GroupTemplate.handleCommand_group_check this command).

Definition composite_transaction (t : Transaction) : Prop :=
  ∃ this command st p, handler this command st p ∧ submits p t.

(** ** States and runs

    The script is atomic and a read changes nothing: whatever the workers
    interleave, the store goes through the transactions they submit, one
    after the other. *)

Definition is_committed (r : EvalReply) : bool :=
  match r with
  | Committed => true
  | _ => false
  end.

Definition step_of (st : string) (v : json) : Prop :=
  (st = "waiting" ∧ v = JStr "idle") ∨ (st = "idle" ∧ v = JStr "finished").

Definition state_at (s : Store) (key : string) : jsval := field_at s key "state".

Definition waiting : jsval := Some (JStr "waiting").

Definition idle : jsval := Some (JStr "idle").

Definition finished : jsval := Some (JStr "finished").

Fixpoint run_transactions (ts : list Transaction) (s : Store)
  : list (Transaction * EvalReply) * Store :=
  match ts with
  | [] => ([], s)
  | t :: rest =>
      let '(r, s1) := eval_transaction t s in
      let '(out, s2) := run_transactions rest s1 in
      ((t, r) :: out, s2)
  end.

(** The first validate entry of [t] is the removal of [m] from [K],
    expected to remove one member. *)
Definition takes_lock (K m : string) (t : Transaction) : bool :=
  match validate t with
  | (RInt 1, zrem K' m') :: _ => bool_decide (K' = K ∧ m' = m)
  | _ => false
  end.

Definition commits_on (K m : string) (ts : list Transaction) (s : Store) : nat :=
  length (List.filter (fun o => is_committed (snd o) && takes_lock K m (fst o))
            (fst (run_transactions ts s))).

(** The state changes of the record under [key] along a run: one pair
    (before, after) for each committed transaction that writes its state. *)
Fixpoint edges (ts : list Transaction) (s : Store) (key : string)
  : list (jsval * jsval) :=
  match ts with
  | [] => []
  | t :: rest =>
      let '(r, s') := eval_transaction t s in
      (if is_committed r && writes_state key t
       then [(state_at s key, state_at s' key)] else [])
      ++ edges rest s' key
  end.

(** ** Workers running side by side

    One step of one worker: its next store call is answered from the shared
    store (the clock reads any value), an evaluation runs the script in one
    piece. [Some (t, r)] labels the evaluation of [t] with reply [r]. *)
Inductive worker_step
  : Store → Prog unit → option (Transaction * EvalReply) → Store → Prog unit → Prop :=
| step_emit s ev k : worker_step s (Emit ev k) None s k
| step_time s k now : worker_step s (TimeAsync k) None s (k now)
| step_task s q id k :
    worker_step s (GetRawTask q id k) None s (k (read_raw_task s q id))
| step_tasks s q ids k :
    worker_step s (GetRawTasks q ids k) None s (k (read_raw_tasks s q ids))
| step_hget s key field k :
    worker_step s (HgetAsync key field k) None s (k (field_at s key field))
| step_eval s t k r s' :
    eval_transaction t s = (r, s') →
    worker_step s (EvalAsync t k) (Some (t, r)) s'
      (match r with
       | Committed => k true
       | Rejected => k false
       | ScriptError => Throw (ReplyError "ERR hash value is not an integer")
       end).

(** Any interleaving of the steps of the workers [ws], with the
    evaluations it goes through, in order. *)
Inductive interleaving
  : Store → list (Prog unit) → list (Transaction * EvalReply) →
    Store → list (Prog unit) → Prop :=
| interleaving_done s ws : interleaving s ws [] s ws
| interleaving_step s ws1 p ws2 l s1 p1 tr s2 ws' :
    worker_step s p l s1 p1 →
    interleaving s1 (ws1 ++ p1 :: ws2) tr s2 ws' →
    interleaving s (ws1 ++ p :: ws2) (option_list l ++ tr) s2 ws'.

(** A worker that runs one of the five handlers. *)
Definition composite_worker (p : Prog unit) : Prop :=
  ∃ this command st, handler this command st p.

(** The same as functions: the step of a worker when the clock reads [now],
    and the interleaving that follows a schedule (the index of the worker
    to step next; a worker that has ended is passed over). *)
Definition step_worker (now : Z) (s : Store) (p : Prog unit)
  : option (option (Transaction * EvalReply) * Store * Prog unit) :=
  match p with
  | Ret _ => None
  | Throw _ => None
  | Emit ev k => Some (None, s, k)
  | TimeAsync k => Some (None, s, k now)
  | GetRawTask q id k => Some (None, s, k (read_raw_task s q id))
  | GetRawTasks q ids k => Some (None, s, k (read_raw_tasks s q ids))
  | HgetAsync key field k => Some (None, s, k (field_at s key field))
  | EvalAsync t k =>
      let '(r, s') := eval_transaction t s in
      Some (Some (t, r), s',
            match r with
            | Committed => k true
            | Rejected => k false
            | ScriptError => Throw (ReplyError "ERR hash value is not an integer")
            end)
  end.

Fixpoint play (now : Z) (schedule : list nat) (s : Store) (ws : list (Prog unit))
  : list (Transaction * EvalReply) * Store * list (Prog unit) :=
  match schedule with
  | [] => ([], s, ws)
  | i :: rest =>
      match ws !! i ≫= step_worker now s with
      | Some (l, s1, p1) =>
          let '(tr, s2, ws') := play now rest s1 (<[i := p1]> ws) in
          ((option_list l ++ tr)%list, s2, ws')
      | None => play now rest s ws
      end
  end.

(** ** Set membership, and what a composite may write *)

Definition member_at (s : Store) (key member : string) : bool :=
  bool_decide (member ∈ set_at s key).

Definition member_step (c : RedisCmd) (M : string → string → bool)
  : string → string → bool :=
  fun k m =>
    match c with
    | srem k0 m0 => if decide (k0 = k ∧ m0 = m) then false else M k m
    | sadd k0 m0 => if decide (k0 = k ∧ m0 = m) then true else M k m
    | _ => M k m
    end.

Definition members_after (cmds : list RedisCmd) (M : string → string → bool)
  : string → string → bool :=
  fold_left (fun M c => member_step c M) cmds M.

(** The key of the record a chain's result handler merges args into. *)
Definition next_child_key (this : Task) : string :=
  __prefix__ (queue this) ++ at_index (children this) (children_finished this + 1).

Definition own_fields : list string := [ "state"; "progress"; "result"; "error" ].

(** The writes of an exec entry: fields of the task's own record, the args
    of the next child, the counter by one, the task's id in the sets of
    waiting and idle tasks, and additions to sorted sets that hold no
    locked commands. *)
Definition write_ok (this : Task) (c : RedisCmd) : Prop :=
  match c with
  | zrem _ _ => False
  | hget _ _ => False
  | hset k f _ =>
      (k = record_key this ∧ In f own_fields) ∨ (k = next_child_key this ∧ f = "args")
  | hincrby k f d => k = record_key this ∧ f = "children_finished" ∧ d = 1
  | srem k m =>
      m = task_id this ∧
      (k = __prefix__ (queue this) ++ "waiting" ∨ k = __prefix__ (queue this) ++ "idle")
  | sadd k m => m = task_id this ∧ k = __prefix__ (queue this) ++ "idle"
  | zadd k _ _ => ¬ lock_key k
  end.

Definition composite_writes (this : Task) (t : Transaction) : Prop :=
  Forall (write_ok this) (exec t) ∧ Forall no_incr (tail (exec t)).

(** The transaction starts with the increment of the counter under [k]. *)
Definition counts_on (k : string) (t : Transaction) : bool :=
  match exec t with
  | hincrby k0 _ _ :: _ => bool_decide (k0 = k)
  | _ => false
  end.

Definition is_end (ev : Event) : bool :=
  match ev_data ev with
  | EndData _ _ => true
  | ErrorData _ => false
  end.

(** The two events of a terminal transition. *)
Definition end_events (this : Task) : list Event :=
  [ {| ev_name := "task:end"; ev_data := EndData (task_id this) (uid this) |};
    {| ev_name := "task:end:" ++ task_id this;
       ev_data := EndData (task_id this) (uid this) |} ].

(** [zadd key time (activate command)] for a child that was read. *)
Definition activate_of (prefix : string) (time : Z) (rawChild : RawTask) : RedisCmd :=
  zadd (prefix ++ raw_pool rawChild ++ ":commands") time
    (toJSON {| to := raw_id rawChild; to_uid := raw_uid rawChild;
               type := "activate"; data := None |}).

(** Every sorted-set entry of the list is an addition with score [sc]. *)
Definition adds_at (sc : Z) (c : RedisCmd) : Prop :=
  match c with
  | zrem _ _ => False
  | zadd _ sc' _ => sc' = sc
  | _ => True
  end.

(** Neither a field nor a set is written. *)
Definition only_adds (c : RedisCmd) : Prop :=
  match c with
  | zadd _ _ _ => True
  | _ => False
  end.

(** ** Events and calls of a run *)

Definition is_finish_write (k : string) (c : RedisCmd) : bool :=
  match c with
  | hset k0 f v =>
      String.eqb f "state" && json_eqb v (JStr "finished") && bool_decide (k0 = k)
  | _ => false
  end.

Definition writes_finished (k : string) (t : Transaction) : bool :=
  existsb (is_finish_write k) (exec t).

(** The way every handler ends: at most one transaction is evaluated; after
    a rejection the handler returns; after a commit it emits the two end
    events if the transaction wrote [finished], and returns. Before the
    evaluation no end event is emitted. *)
Fixpoint ends_on_finish (this : Task) (p : Prog unit) : Prop :=
  match p with
  | Ret _ => True
  | Throw _ => True
  | Emit ev k => is_end ev = false ∧ ends_on_finish this k
  | TimeAsync k => ∀ r, ends_on_finish this (k r)
  | GetRawTask _ _ k => ∀ r, ends_on_finish this (k r)
  | GetRawTasks _ _ k => ∀ r, ends_on_finish this (k r)
  | HgetAsync _ _ k => ∀ r, ends_on_finish this (k r)
  | EvalAsync t k =>
      k false = Ret tt ∧
      k true = (if writes_finished (record_key this) t
                then fold_right Emit (Ret tt) (end_events this)
                else Ret tt)
  end.

Definition is_eval (c : StoreCall) : bool :=
  match c with
  | CallEval _ => true
  | _ => false
  end.

(** The committed transactions of a run that start with the increment of
    the counter under [k]. *)
Definition increments (k : string) (tr : list (Transaction * EvalReply)) : nat :=
  length (List.filter (fun o => is_committed (snd o) && counts_on k (fst o)) tr).

(** The fields a handler of [this] may write, and the set entries it may
    move. *)
Definition may_write (this : Task) (k f : string) : Prop :=
  (k = record_key this ∧ In f ("children_finished" :: own_fields))
  ∨ (k = next_child_key this ∧ f = "args").

Definition may_move (this : Task) (k m : string) : Prop :=
  m = task_id this ∧
  (k = __prefix__ (queue this) ++ "waiting" ∨ k = __prefix__ (queue this) ++ "idle").

(** From [s] to [s'] only fields and set entries the handler of [this] may
    touch have changed. *)
Definition frame (this : Task) (s s' : Store) : Prop :=
  (∀ k f, ¬ may_write this k f → field_at s' k f = field_at s k f)
  ∧ (∀ k m, ¬ may_move this k m → member_at s' k m = member_at s k m).

(** From [s] to [s'] no entry of a sorted set was removed but the locked
    [command], and no set of locked commands got a new entry. *)
Definition commands_kept (this : Task) (command : Command) (s s' : Store) : Prop :=
  (∀ k m, is_Some (score_at s k m) →
          ¬ (k = __prefix__ (queue this) ++ pool this ++ ":commands_locked"
             ∧ m = toJSON command) →
          is_Some (score_at s' k m))
  ∧ (∀ k m, lock_key k → score_at s k m = None → score_at s' k m = None).

(** ** Preparation *)

(** The children that get prepared: the array [init()] returned, or else
    the task list of the constructor. *)
Definition children_to_init (this : Template) (init : option (list ChildTemplate))
  : list ChildTemplate :=
  match init with
  | Some l => l
  | None => __children_to_init__ this
  end.

Definition settles (c : ChildTemplate) : Prop := ∃ t, prepared c = inr t.

(** ** Example data

    One queue with prefix [idoit:] and pool [default]; the clock reads 100. *)

Definition q0 : Queue := {| __prefix__ := "idoit:" |}.

Definition composite (id : string) (kids : list string) (done : nat)
    (up : option string) : Task :=
  {| queue := q0; task_id := id; uid := "u-" ++ id; pool := "default";
     name := "composite"; removeDelay := 1000; total := 2;
     parent := up; parent_pool := "default"; parent_uid := "u-top";
     children := kids; children_finished := done;
     result := None; user_data := None |}.

Definition command_to (id type : string) (d : jsval) : Command :=
  {| to := id; to_uid := "u-" ++ id; type := type; data := d |}.

Definition result_from (child : string) (r : json) : jsval :=
  Some (JObj [ ("id", JStr child); ("result", r) ]).

Definition record_of (id st : string) (more : list (string * json))
  : string * gmap string json :=
  ("idoit:" ++ id,
   list_to_map ([ ("state", JStr st); ("pool", JStr "default");
                  ("uid", JStr ("u-" ++ id)) ] ++ more)).

(** A store with the given records in which [c] is a locked command of the
    default pool. *)
Definition store_with (records : list (string * gmap string json)) (c : Command)
  : Store :=
  {| hashes := list_to_map records;
     sets := ∅;
     zsets := {[ "idoit:default:commands_locked" := {[ toJSON c := 90 ]} ]} |}.

Definition world_at (s : Store) : World :=
  {| w_store := s; w_now := 100; w_events := []; w_calls := [] |}.

(** A chain [c] of [a] and [b]; [a] has just finished. *)
Definition chain_ab : Task := composite "c" [ "a"; "b" ] 0 None.

Definition store_ab (c : Command) (with_b : bool) : Store :=
  store_with
    (record_of "c" "idle" [ ("children_finished", JNum 0) ]
     :: (if with_b then [ record_of "b" "waiting" [ ("args", JArr [ JNum 1 ]) ] ] else []))
    c.

(** Two workers race on the activate command of a chain. *)

Definition chain_waiting : Task := composite "c" [ "a"; "b" ] 0 None.

Definition activate_c : Command := command_to "c" "activate" None.

Definition store_waiting : Store :=
  store_with [ record_of "c" "waiting" [ ("children_finished", JNum 0) ];
               record_of "a" "waiting" [ ("args", JArr []) ] ] activate_c.

(** What either worker submits after reading the clock (100) and the record
    of [a]. *)
Definition tx_activate : Transaction :=
  {| validate := [ lock_check chain_waiting activate_c;
                   state_check chain_waiting "waiting" ];
     exec := [ srem "idoit:waiting" "c";
               sadd "idoit:idle" "c";
               hset "idoit:c" "state" (JStr "idle");
               zadd "idoit:default:commands" 100
                 (toJSON (command_to "a" "activate" None)) ] |}.

(** Both workers run the handler; they take turns, call by call. *)
Definition racer : Prog unit :=
  ChainTemplate.handleCommand_activate chain_waiting activate_c.

Definition race : list (Transaction * EvalReply) * Store * list (Prog unit) :=
  play 100 [ 0; 1; 0; 1; 0; 1 ]%nat store_waiting [ racer; racer ].

(** A group whose children have all reported; [y] may have been deleted. *)

Definition group_g : Task := composite "g" [ "x"; "y" ] 2 (Some "top").

Definition check_g : Command := command_to "g" "group_check" None.

Definition store_g (with_y : bool) : Store :=
  store_with
    (record_of "g" "idle" [ ("children_finished", JNum 2) ]
     :: record_of "x" "finished" [ ("result", JStr "a") ]
     :: (if with_y then [ record_of "y" "finished" [ ("result", JStr "b") ] ] else []))
    check_g.

Definition group_early : Task := composite "g" [ "x"; "y" ] 1 None.

(** The last child of a chain reports 8. *)

Definition chain_last : Task := composite "c" [ "a"; "b" ] 1 None.

Definition result_b : Command := command_to "c" "result" (result_from "b" (JNum 8)).

Definition store_last : Store :=
  store_with [ record_of "c" "idle" [ ("children_finished", JNum 1) ] ] result_b.

(** Preparation. *)

Definition blank : Task := composite "" [] 0 None.

Definition leaf (id : string) (units : Z) : ChildTemplate :=
  {| prepared := inr {| queue := q0; task_id := id; uid := "u-" ++ id;
                        pool := "default"; name := "leaf"; removeDelay := 1000;
                        total := units; parent := None; parent_pool := "";
                        parent_uid := ""; children := [];
                        children_finished := 0; result := None;
                        user_data := None |} |}.

(** Result commands without data, and from a task that is no child. *)

Definition result_no_data : Command := command_to "c" "result" None.

Definition result_a7 : Command := command_to "c" "result" (result_from "a" (JNum 7)).

(** A result command that names a task [z] that is no child of the chain. *)
Definition result_z7 : Command := command_to "c" "result" (result_from "z" (JNum 7)).

Definition tx_advance : Transaction :=
  {| validate := [ lock_check chain_ab result_a7; state_check chain_ab "idle" ];
     exec := [ hincrby "idoit:c" "children_finished" 1;
               zadd "idoit:default:commands" 100
                 (toJSON (command_to "b" "activate" None));
               hset "idoit:b" "args" (JArr [ JNum 1; JNum 7 ]) ] |}.

(** A group [g] of [x] and [y] that is activated after [y] was deleted, and
    the result of [x] arriving at it. *)

Definition group_xy : Task := composite "g" [ "x"; "y" ] 0 None.

Definition activate_g : Command := command_to "g" "activate" None.

Definition store_group_waiting : Store :=
  store_with [ record_of "g" "waiting" [ ("children_finished", JNum 0) ];
               record_of "x" "waiting" [] ] activate_g.

Definition result_x : Command := command_to "g" "result" (result_from "x" (JStr "a")).

Definition store_group_idle : Store :=
  store_with [ record_of "g" "idle" [ ("children_finished", JNum 0) ] ] result_x.

(** What the group's activate handler starts from, before its loop. *)
Definition tx_group_waiting : Transaction :=
  {| validate := [ lock_check group_xy activate_g; state_check group_xy "waiting" ];
     exec := [ srem "idoit:waiting" "g"; sadd "idoit:idle" "g";
               hset "idoit:g" "state" (JStr "idle") ] |}.


(** The chain [c] with two result commands locked, the one of [a] and the
    one that names [z]. *)
Definition store_two_locked : Store :=
  {| hashes := hashes (store_ab result_a7 true);
     sets := ∅;
     zsets := {[ "idoit:default:commands_locked" :=
                   {[ toJSON result_a7 := 90; toJSON result_z7 := 91 ]} ]} |}.

(** The first child of the chain reports 0. *)
Definition result_a0 : Command := command_to "c" "result" (result_from "a" (JNum 0)).

Definition leaf_task (id : string) (units : Z) : Task :=
  {| queue := q0; task_id := id; uid := "u-" ++ id; pool := "default";
     name := "leaf"; removeDelay := 1000; total := units; parent := None;
     parent_pool := ""; parent_uid := ""; children := [];
     children_finished := 0; result := None; user_data := None |}.

(** * Properties *)

(** ** Strings and keys *)

Lemma chars_app (a b : string) : chars (a ++ b) = (chars a ++ chars b)%list.
Proof.
  induction a as [|c a IH]; [done|].
  change (c :: chars (a ++ b) = c :: (chars a ++ chars b)%list). by rewrite IH.
Qed.

Lemma append_assoc (a b c : string) : (a ++ b) ++ c = a ++ (b ++ c).
Proof.
  induction a as [|x a IH]; [done|].
  change (String x ((a ++ b) ++ c) = String x (a ++ b ++ c)). by rewrite IH.
Qed.

Lemma commands_not_lock_key (a : string) : ¬ lock_key (a ++ ":commands").
Proof.
  intros [b H]. apply (f_equal chars) in H. rewrite !chars_app in H.
  change (chars ":commands") with (chars ":command" ++ ["s"%char])%list in H.
  change (chars ":commands_locked") with (chars ":commands_locke" ++ ["d"%char])%list in H.
  rewrite !app_assoc in H. apply app_inj_tail in H as [_ H]. discriminate.
Qed.

Lemma finished_not_lock_key (a : string) : ¬ lock_key (a ++ "finished").
Proof.
  intros [b H]. apply (f_equal chars) in H. rewrite !chars_app in H.
  change (chars ":commands_locked") with (chars ":command" ++ chars "s_locked")%list in H.
  rewrite app_assoc in H. apply app_inj_2 in H as [_ H]; [discriminate | done].
Qed.

Lemma pool_commands_not_lock_key (p x : string) : ¬ lock_key (p ++ x ++ ":commands").
Proof. rewrite <- append_assoc. apply commands_not_lock_key. Qed.

Lemma pool_lock_key (p x : string) : lock_key (p ++ x ++ ":commands_locked").
Proof. exists (p ++ x). by rewrite append_assoc. Qed.

(** ** What one store command does to a field and to a sorted set *)

Lemma hash_at_lookup (s : Store) (k f : string) : hash_at s k !! f = field_at s k f.
Proof. unfold hash_at, field_at. by destruct (hashes s !! k). Qed.

Lemma field_at_insert (s : Store) (k0 f0 k f : string) (v : json) :
  field_at (with_hashes s (<[k0 := <[f0 := v]> (hash_at s k0)]> (hashes s))) k f
  = if decide (k0 = k ∧ f0 = f) then Some v else field_at s k f.
Proof.
  unfold field_at at 1. simpl.
  destruct (decide (k0 = k)) as [->|Hk].
  - rewrite lookup_insert_eq. simpl.
    destruct (decide (f0 = f)) as [->|Hf].
    + rewrite lookup_insert_eq. by rewrite decide_True.
    + rewrite lookup_insert_ne by done. rewrite hash_at_lookup.
      rewrite decide_False by (by intros [??]). done.
  - rewrite lookup_insert_ne by done.
    rewrite decide_False by (by intros [??]). done.
Qed.

Lemma redis_call_fields (c : RedisCmd) (s s' : Store) (r : Reply) :
  redis_call c s = Some (r, s') →
  ∀ k f, field_at s' k f = field_step c (field_at s) k f.
Proof.
  intros H k f. destruct c; simpl in H; simplify_eq; try done.
  - apply field_at_insert.
  - simpl. destruct (field_at s key field) as [[]|] eqn:E; simplify_eq;
      rewrite field_at_insert; case_decide as Hd; try done;
      destruct Hd as [-> ->]; by rewrite E.
Qed.

Lemma redis_call_scores (c : RedisCmd) (s s' : Store) (r : Reply) :
  redis_call c s = Some (r, s') →
  ∀ k m, score_at s' k m = score_step c (score_at s) k m.
Proof.
  intros H k m. unfold score_at, zset_at.
  destruct c; simpl in H;
    try (destruct (field_at s key field) as [[]|]); simplify_eq; simpl; try done.
  - destruct (decide (key = k)) as [->|Hk].
    + rewrite lookup_insert_eq. simpl.
      destruct (decide (member = m)) as [->|Hm].
      * rewrite lookup_delete_eq. by rewrite decide_True.
      * rewrite lookup_delete_ne by done. rewrite decide_False by (by intros [??]). done.
    + rewrite lookup_insert_ne by done. rewrite decide_False by (by intros [??]). done.
  - destruct (decide (key = k)) as [->|Hk].
    + rewrite lookup_insert_eq. simpl.
      destruct (decide (member = m)) as [->|Hm].
      * rewrite lookup_insert_eq. by rewrite decide_True.
      * rewrite lookup_insert_ne by done. rewrite decide_False by (by intros [??]). done.
    + rewrite lookup_insert_ne by done. rewrite decide_False by (by intros [??]). done.
Qed.

Lemma in_zset_score (s : Store) (k m : string) :
  in_zset s k m = true ↔ is_Some (score_at s k m).
Proof. unfold in_zset, score_at. by rewrite bool_decide_eq_true. Qed.

(** ** Every transaction a program can submit *)

Lemma always_submits {A : Type} (P : Transaction → Prop) (p : Prog A) :
  always P p ↔ ∀ t, submits p t → P t.
Proof.
  split.
  - intros H t Hs. induction Hs; simpl in H; try (by destruct H); auto.
    destruct H as [_ H]. auto.
  - induction p as [a|e|ev k IH|k IH|q id k IH|q ids k IH|key field k IH|t k IH];
      simpl; intros H; auto.
    + apply IH. intros t Ht. apply H. by constructor.
    + intros r. apply IH. intros t Ht. apply H. by econstructor.
    + intros r. apply IH. intros t Ht. apply H. by econstructor.
    + intros r. apply IH. intros t Ht. apply H. by econstructor.
    + intros r. apply IH. intros t Ht. apply H. by econstructor.
    + split; [apply H; constructor|].
      intros b. apply IH. intros t' Ht. apply H. by econstructor.
Qed.

(** ** The shape of a composite's transaction *)

Lemma shape_push (this : Task) (command : Command) (st : string)
    (t : Transaction) (c : RedisCmd) :
  composite_shape this command st t →
  cmd_ok this st c →
  composite_shape this command st (push_exec t c).
Proof.
  intros (Hv & Hx & Hw) Hc. unfold composite_shape. simpl.
  split; [done|]. split.
  - apply Forall_app. split; [done|]. by constructor.
  - intros Hst. unfold writes_state in *. simpl.
    rewrite existsb_app, (Hw Hst). done.
Qed.

Local Ltac cmd_ok_tac :=
  unfold cmd_ok;
  first
    [ exact I
    | discriminate
    | apply pool_commands_not_lock_key
    | apply finished_not_lock_key
    | (intros ?; discriminate)
    | (intros _; split;
       [ reflexivity
       | first [ left; split; reflexivity | right; split; reflexivity ] ]) ].

Local Ltac shape_base :=
  unfold composite_shape; simpl; split; [reflexivity|];
  split; [repeat (apply List.Forall_cons; [cmd_ok_tac|]); apply List.Forall_nil|];
  first [ discriminate
        | (intros _; unfold writes_state, record_key; simpl;
           rewrite bool_decide_eq_true_2 by done; reflexivity) ].

Local Ltac push_ok :=
  repeat (apply shape_push;
          [ | simpl; first [apply pool_commands_not_lock_key | discriminate] ]).

Lemma activate_children_shape (this : Task) (command : Command) (st prefix : string)
    (time : Z) (rawChildren : list (option RawTask)) (n i : nat) (t : Transaction) :
  composite_shape this command st t →
  composite_shape this command st
    (GroupTemplate.activate_children prefix time rawChildren i n t).
Proof.
  revert i t. induction n as [|n IH]; intros i t Ht; simpl; [done|].
  apply IH. destruct (mjoin (rawChildren !! i)); [|done].
  apply shape_push; [done|].
  simpl. apply pool_commands_not_lock_key.
Qed.

Lemma handler_shape (this : Task) (command : Command) (st : string) (p : Prog unit) :
  handler this command st p → always (composite_shape this command st) p.
Proof.
  destruct 1.
  - (* chain activate *)
    unfold ChainTemplate.handleCommand_activate. simpl. intros time rawChild.
    split; [|done].
    destruct rawChild; push_ok; shape_base.
  - (* chain result *)
    unfold ChainTemplate.handleCommand_result. simpl. intros time.
    destruct (_ <? _)%nat.
    + simpl. intros rawChild.
      set (t0 := match rawChild with Some _ => _ | None => _ end).
      assert (composite_shape this command "idle" t0) as Ht0.
      { subst t0. destruct rawChild; push_ok; shape_base. }
      clearbody t0.
      destruct (data_result command) as [e|res]; simpl; [done|].
      destruct (truthy res); simpl; [|by split].
      intros field. destruct (concat_one _ _) as [e|newArgs]; simpl; [done|].
      split; [|done]. by push_ok.
    + destruct (data_result command) as [e|res]; simpl; [done|].
      split; [|by intros []].
      destruct (has_parent this), res; push_ok; shape_base.
  - (* group activate *)
    unfold GroupTemplate.handleCommand_activate. simpl. intros time rawChildren.
    split; [|done]. apply activate_children_shape. shape_base.
  - (* group result *)
    unfold GroupTemplate.handleCommand_result. simpl. intros time.
    split; [|done]. shape_base.
  - (* group group_check *)
    unfold GroupTemplate.handleCommand_group_check.
    destruct (_ <? _)%nat; simpl; [done|]. intros time rawChildren.
    destruct (existsb _ _); simpl; (split; [|by intros []]);
      destruct (has_parent this); push_ok; shape_base.
Qed.

(** ** Evaluating a composite's transaction *)

Lemma state_reply (st : string) (v : jsval) :
  reply_eqb (RBulk (Some (JStr st))) (RBulk v) = true ↔ v = Some (JStr st).
Proof.
  destruct v as [[]|]; simpl; try (split; [discriminate | congruence]).
  rewrite String.eqb_eq. split; congruence.
Qed.

Lemma run_exec_no_incr (cmds : list RedisCmd) (s : Store) :
  Forall no_incr cmds → ∃ s', run_exec cmds s = (Committed, s').
Proof.
  intros H. revert s. induction H as [|c cmds Hc _ IH]; intros s; simpl; [eauto|].
  destruct c; simpl in *; try done; apply IH.
Qed.

Lemma run_exec_state (this : Task) (st : string) (cmds : list RedisCmd) :
  Forall (cmd_ok this st) cmds →
  ∀ s s' k, run_exec cmds s = (Committed, s') →
    if existsb (is_state_write k) cmds
    then k = record_key this ∧ ∃ v, state_at s' k = Some v ∧ step_of st v
    else state_at s' k = state_at s k.
Proof.
  induction 1 as [|c cmds Hc _ IH]; intros s s' k H; simpl in *; [congruence|].
  destruct (redis_call c s) as [[r0 s0]|] eqn:E; [|done].
  specialize (IH s0 s' k H).
  destruct (existsb (is_state_write k) cmds); [by rewrite orb_true_r|].
  rewrite orb_false_r. unfold state_at in *.
  rewrite IH, (redis_call_fields _ _ _ _ E).
  destruct c; simpl; try done.
  - case_bool_decide as Hd.
    + destruct Hd as [-> ->]. rewrite decide_True by done.
      destruct (Hc eq_refl) as [-> Hs]. split; [done|]. eauto.
    + by rewrite decide_False.
  - rewrite decide_False; [done|]. intros [_ ->]. by apply Hc.
Qed.

Lemma run_exec_lock (this : Task) (st : string) (cmds : list RedisCmd) :
  Forall (cmd_ok this st) cmds →
  ∀ s s' r K m, run_exec cmds s = (r, s') → lock_key K →
    score_at s K m = None → score_at s' K m = None.
Proof.
  induction 1 as [|c cmds Hc _ IH]; intros s s' r K m H HK Hs; simpl in *;
    [congruence|].
  destruct (redis_call c s) as [[r0 s0]|] eqn:E; [|congruence].
  apply (IH s0 s' r K m H HK).
  rewrite (redis_call_scores _ _ _ _ E).
  destruct c; simpl in *; try done.
  rewrite decide_False; [done|]. intros [-> _]. done.
Qed.

(** The two checks of a composite: the removal of the locked command, then
    the state. *)
Lemma run_validate_composite (this : Task) (command : Command) (st : string) (s : Store) :
  ∃ s1,
    run_validate [ lock_check this command; state_check this st ] s
    = (if in_zset s (__prefix__ (queue this) ++ pool this ++ ":commands_locked")
             (toJSON command)
       then if reply_eqb (RBulk (Some (JStr st))) (RBulk (state_at s (record_key this)))
            then Committed else Rejected
       else Rejected, s1)
    ∧ (∀ k f, field_at s1 k f = field_at s k f)
    ∧ (∀ k m, score_at s1 k m
              = score_step (zrem (__prefix__ (queue this) ++ pool this ++ ":commands_locked")
                              (toJSON command)) (score_at s) k m)
    ∧ sets s1 = sets s.
Proof.
  set (K := __prefix__ (queue this) ++ pool this ++ ":commands_locked").
  set (s1 := with_zsets s (<[K := delete (toJSON command) (zset_at s K)]> (zsets s))).
  assert (redis_call (zrem K (toJSON command)) s
          = Some (RInt (count (in_zset s K (toJSON command))), s1)) as E by done.
  exists s1. split; [|split; [done|split; [|done]]].
  - unfold lock_check, state_check. fold K. simpl. fold s1.
    destruct (in_zset s K (toJSON command)); simpl; [|done].
    unfold state_at, record_key, field_at. simpl.
    by destruct (hashes s !! _ ≫= _) as [[| | |y| |]|]; try destruct (st =? y)%string.
  - intros k m. apply (redis_call_scores _ _ _ _ E).
Qed.

Lemma shape_eval (this : Task) (command : Command) (st : string)
    (t : Transaction) (s : Store) :
  composite_shape this command st t →
  ∀ r s', eval_transaction t s = (r, s') →
    (r = Committed →
       in_zset s (__prefix__ (queue this) ++ pool this ++ ":commands_locked")
         (toJSON command) = true
       ∧ state_at s (record_key this) = Some (JStr st)
       ∧ score_at s' (__prefix__ (queue this) ++ pool this ++ ":commands_locked")
           (toJSON command) = None)
    ∧ (r ≠ Committed → s' = s)
    ∧ (∀ K m, lock_key K → score_at s K m = None → score_at s' K m = None)
    ∧ (∀ k, if is_committed r && writes_state k t
            then k = record_key this ∧ ∃ v, state_at s' k = Some v ∧ step_of st v
            else state_at s' k = state_at s k).
Proof.
  intros (Hv & Hx & _).
  intros r s' H. unfold eval_transaction in H. rewrite Hv in H.
  destruct (run_validate_composite this command st s) as (s1 & E & Hf & Hz & _).
  rewrite E in H. clear E.
  set (K := __prefix__ (queue this) ++ pool this ++ ":commands_locked") in *.
  assert (∀ K' m, lock_key K' → score_at s K' m = None → score_at s1 K' m = None)
    as Hlock1.
  { intros K' m _ Hs. rewrite Hz. simpl. by case_decide. }
  assert (score_at s1 K (toJSON command) = None) as Hgone.
  { rewrite Hz. simpl. by rewrite decide_True. }
  destruct (in_zset s K (toJSON command)) eqn:Hin;
    [destruct (reply_eqb _ _) eqn:Hstate|].
  - apply state_reply in Hstate.
    destruct (run_exec (exec t) s1) as [r2 s2] eqn:Hrun.
    destruct r2; simplify_eq.
    + split; [|split; [done|split]].
      * intros _. split; [done|]. split; [done|].
        eapply run_exec_lock; eauto using pool_lock_key.
      * intros K' m HK Hs. eapply run_exec_lock; eauto.
      * intros k. simpl. unfold writes_state.
        pose proof (run_exec_state this st _ Hx s1 s' k Hrun) as Hk.
        destruct (existsb _ _); [done|]. unfold state_at in *. by rewrite Hk, Hf.
    + by repeat split.
    + by repeat split.
  - simplify_eq. by repeat split.
  - simplify_eq. by repeat split.
Qed.

Lemma composite_transaction_shape (t : Transaction) :
  composite_transaction t → ∃ this command st, composite_shape this command st t.
Proof.
  intros (this & command & st & p & Hp & Hs). exists this, command, st.
  by apply (proj1 (always_submits _ _) (handler_shape _ _ _ _ Hp)).
Qed.

(** ** The store after a committed transaction *)

Lemma fields_after_ext (cmds : list RedisCmd) (F G : string → string → jsval) :
  (∀ k f, F k f = G k f) → ∀ k f, fields_after cmds F k f = fields_after cmds G k f.
Proof.
  revert F G. induction cmds as [|c cmds IH]; intros F G H k f; simpl; [done|].
  apply IH. intros k' f'. unfold field_step. destruct c; try done.
  - by case_decide.
  - case_decide; [|done]. by rewrite H.
Qed.

Lemma scores_after_ext (cmds : list RedisCmd) (F G : string → string → option Z) :
  (∀ k m, F k m = G k m) → ∀ k m, scores_after cmds F k m = scores_after cmds G k m.
Proof.
  revert F G. induction cmds as [|c cmds IH]; intros F G H k m; simpl; [done|].
  apply IH. intros k' m'. unfold score_step. destruct c; try done; by case_decide.
Qed.

Lemma run_exec_views (cmds : list RedisCmd) (s s' : Store) :
  run_exec cmds s = (Committed, s') →
  (∀ k f, field_at s' k f = fields_after cmds (field_at s) k f)
  ∧ (∀ k m, score_at s' k m = scores_after cmds (score_at s) k m).
Proof.
  revert s. induction cmds as [|c cmds IH]; intros s H; simpl in H.
  { by simplify_eq. }
  destruct (redis_call c s) as [[r0 s0]|] eqn:E; [|done].
  destruct (IH s0 H) as [Hf Hz]. split.
  - intros k f. rewrite Hf. simpl. apply fields_after_ext.
    apply (redis_call_fields _ _ _ _ E).
  - intros k m. rewrite Hz. simpl. apply scores_after_ext.
    apply (redis_call_scores _ _ _ _ E).
Qed.

Lemma eval_commits (this : Task) (command : Command) (st : string)
    (t : Transaction) (s : Store) :
  validate t = [ lock_check this command; state_check this st ] →
  Forall no_incr (tail (exec t)) →
  in_zset s (__prefix__ (queue this) ++ pool this ++ ":commands_locked")
    (toJSON command) = true →
  state_at s (record_key this) = Some (JStr st) →
  can_start (exec t) s →
  ∃ s', eval_transaction t s = (Committed, s')
    ∧ (∀ k f, field_at s' k f = fields_after (exec t) (field_at s) k f)
    ∧ (∀ k m, score_at s' k m
              = scores_after
                  (zrem (__prefix__ (queue this) ++ pool this ++ ":commands_locked")
                     (toJSON command) :: exec t)
                  (score_at s) k m).
Proof.
  intros Hv Htl Hin Hst Hstart. unfold eval_transaction. rewrite Hv.
  destruct (run_validate_composite this command st s) as (s1 & E & Hf & Hz & _).
  rewrite E, Hin, Hst. clear E.
  rewrite (proj2 (state_reply st _) eq_refl).
  assert (∃ s', run_exec (exec t) s1 = (Committed, s')) as [s' Hx].
  { destruct (exec t) as [|c cmds]; [by eexists|]. simpl in *.
    assert (∃ r0 s0, redis_call c s1 = Some (r0, s0)) as (r0 & s0 & E0).
    { destruct c; simpl; eauto. rewrite Hf.
      destruct Hstart as [->|[n ->]]; eauto. }
    rewrite E0. by apply run_exec_no_incr. }
  rewrite Hx. exists s'. split; [done|].
  destruct (run_exec_views _ _ _ Hx) as [Hf' Hz'].
  split.
  - intros k f. rewrite Hf'. by apply fields_after_ext.
  - intros k m. rewrite Hz'. simpl. by apply scores_after_ext.
Qed.

(** ** Interleavings are runs *)

Lemma worker_step_submits (s s' : Store) (p p' : Prog unit)
    (l : option (Transaction * EvalReply)) :
  worker_step s p l s' p' →
  (∀ t, submits p' t → submits p t)
  ∧ match l with
    | Some (t, r) => submits p t ∧ eval_transaction t s = (r, s')
    | None => s' = s
    end.
Proof.
  destruct 1 as [s ev k|s k now|s q id k|s q ids k|s key field k|s t k r s' E].
  - split; [|done]. intros t Ht. by constructor.
  - split; [|done]. intros t Ht. by econstructor.
  - split; [|done]. intros t Ht. by econstructor.
  - split; [|done]. intros t Ht. by econstructor.
  - split; [|done]. intros t Ht. by econstructor.
  - split; [|split; [constructor | done]].
    intros t' Ht. destruct r; [by econstructor | by econstructor | inversion Ht].
Qed.

(** Whatever the interleaving, the store goes through the run of the
    transactions evaluated, and each of them was submitted by one of the
    workers. *)
Lemma interleaving_run (P : Transaction → Prop) (s s' : Store)
    (ws ws' : list (Prog unit)) (tr : list (Transaction * EvalReply)) :
  interleaving s ws tr s' ws' →
  Forall (fun p => ∀ t, submits p t → P t) ws →
  Forall P (map fst tr) ∧ run_transactions (map fst tr) s = (tr, s').
Proof.
  induction 1 as [s ws|s ws1 p ws2 l s1 p1 tr s2 ws' Hstep _ IH]; intros Hws.
  { by split. }
  destruct (worker_step_submits _ _ _ _ _ Hstep) as [Hsub Hl].
  apply Forall_app in Hws as [Hws1 Hws2]. apply Forall_cons in Hws2 as [Hp Hws2].
  destruct IH as [IHP IHrun].
  { apply Forall_app. split; [done|]. apply Forall_cons. split; [|done]. auto. }
  destruct l as [[t r]|]; simpl.
  - destruct Hl as [Ht E]. split; [apply Forall_cons; auto|].
    by rewrite E, IHrun.
  - by subst.
Qed.

Lemma composite_workers_submit (ws : list (Prog unit)) :
  Forall composite_worker ws →
  Forall (fun p => ∀ t, submits p t → composite_transaction t) ws.
Proof.
  intros H. eapply Forall_impl; [exact H|].
  intros p (this & command & st & Hp) t Ht. by exists this, command, st, p.
Qed.

Lemma step_worker_sound (now : Z) (s s1 : Store) (p p1 : Prog unit)
    (l : option (Transaction * EvalReply)) :
  step_worker now s p = Some (l, s1, p1) → worker_step s p l s1 p1.
Proof.
  destruct p as [a|e|ev k|k|q id k|q ids k|key field k|t k]; simpl; intros H;
    try discriminate.
  - simplify_eq. apply step_emit.
  - simplify_eq. apply (step_time _ _ now).
  - simplify_eq. apply step_task.
  - simplify_eq. apply step_tasks.
  - simplify_eq. apply step_hget.
  - destruct (eval_transaction t s) as [r s'] eqn:E. simplify_eq. by apply step_eval.
Qed.

Lemma play_interleaving (now : Z) (schedule : list nat) (s : Store)
    (ws : list (Prog unit)) :
  interleaving s ws (play now schedule s ws).1.1
    (play now schedule s ws).1.2 (play now schedule s ws).2.
Proof.
  revert s ws. induction schedule as [|i rest IH]; intros s ws; simpl.
  { constructor. }
  destruct (ws !! i) as [p|] eqn:Hi; simpl; [|apply IH].
  destruct (step_worker now s p) as [[[l s1] p1]|] eqn:Hp; [|apply IH].
  specialize (IH s1 (<[i := p1]> ws)).
  destruct (play now rest s1 (<[i := p1]> ws)) as [[tr s2] ws']. simpl in *.
  rewrite <- (take_drop_middle ws i p Hi).
  rewrite insert_take_drop in IH by (by eapply lookup_lt_Some).
  econstructor; [by apply (step_worker_sound now)|done].
Qed.

(** ** Locking discipline *)

Lemma commits_on_cons (K m : string) (t : Transaction) (rest : list Transaction)
    (s : Store) :
  commits_on K m (t :: rest) s
  = ((if is_committed (fst (eval_transaction t s)) && takes_lock K m t
      then 1 else 0)
     + commits_on K m rest (snd (eval_transaction t s)))%nat.
Proof.
  unfold commits_on. simpl.
  destruct (eval_transaction t s) as [r s1]. simpl.
  destruct (run_transactions rest s1) as [out s2]. simpl.
  by destruct (is_committed r && takes_lock K m t).
Qed.

Lemma takes_lock_shape (this : Task) (command : Command) (st K m : string)
    (t : Transaction) :
  composite_shape this command st t → takes_lock K m t = true →
  K = __prefix__ (queue this) ++ pool this ++ ":commands_locked" ∧ m = toJSON command.
Proof.
  intros (Hv & _) H. unfold takes_lock in H. rewrite Hv in H. simpl in H.
  apply bool_decide_eq_true in H as [<- <-]. done.
Qed.

Lemma commits_on_unlocked (K m : string) (ts : list Transaction) :
  Forall composite_transaction ts →
  ∀ s, lock_key K → score_at s K m = None → commits_on K m ts s = 0%nat.
Proof.
  induction 1 as [|t ts Ht _ IH]; intros s HK Hs; [done|].
  rewrite commits_on_cons.
  destruct (composite_transaction_shape t Ht) as (this & command & st & Hshape).
  destruct (eval_transaction t s) as [r s1] eqn:E. simpl.
  destruct (shape_eval this command st t s Hshape r s1 E) as (Hc & _ & Hl & _).
  rewrite (IH s1 HK (Hl K m HK Hs)).
  destruct (is_committed r && takes_lock K m t) eqn:Hb; [|done].
  apply andb_true_iff in Hb as [Hr Hk]. destruct r; try done.
  destruct (takes_lock_shape _ _ _ _ _ _ Hshape Hk) as [-> ->].
  destruct (Hc eq_refl) as (Hin & _). apply in_zset_score in Hin.
  rewrite Hs in Hin. by destruct Hin.
Qed.

Lemma commits_once (K m : string) (ts : list Transaction) (s : Store) :
  Forall composite_transaction ts → (commits_on K m ts s ≤ 1)%nat.
Proof.
  intros Hts. revert s.
  induction Hts as [|t ts Ht Hts IH]; intros s; [unfold commits_on; simpl; lia|].
  rewrite commits_on_cons.
  destruct (composite_transaction_shape t Ht) as (this & command & st & Hshape).
  destruct (eval_transaction t s) as [r s1] eqn:E. simpl.
  destruct (is_committed r && takes_lock K m t) eqn:Hb; [|apply IH].
  apply andb_true_iff in Hb as [Hr Hk]. destruct r; try done.
  destruct (takes_lock_shape _ _ _ _ _ _ Hshape Hk) as [-> ->].
  destruct (shape_eval this command st t s Hshape _ s1 E) as (Hc & _).
  destruct (Hc eq_refl) as (_ & _ & Hgone).
  rewrite (commits_on_unlocked _ _ ts Hts s1 (pool_lock_key _ _) Hgone). lia.
Qed.

(** C2. Every transaction a composite handler builds (chain activate, chain
    result, group activate, group result, group group_check) has as its
    first validate entry the removal of the handled command's canonical
    form from the pool's [commands_locked] sorted set, expected to reply 1;
    hence among the transactions the store evaluates, in a run or in any
    interleaving of workers that run composite handlers, at most one that
    takes a given lock commits. *)
Theorem lock_removed_first_and_commits_once :
  (∀ this command st p t,
     handler this command st p → submits p t →
     head (validate t)
     = Some (RInt 1,
             zrem (__prefix__ (queue this) ++ pool this ++ ":commands_locked")
               (toJSON command)))
  ∧ (∀ K m ts s,
       Forall composite_transaction ts → (commits_on K m ts s ≤ 1)%nat)
  ∧ (∀ K m s ws tr s' ws',
       Forall composite_worker ws →
       interleaving s ws tr s' ws' →
       (length (List.filter
                  (fun o => is_committed (snd o) && takes_lock K m (fst o)) tr)
        ≤ 1)%nat).
Proof.
  split; [|split].
  - intros this command st p t Hp Hs.
    pose proof (proj1 (always_submits _ _) (handler_shape _ _ _ _ Hp) t Hs) as (Hv & _).
    by rewrite Hv.
  - intros K m ts s. apply commits_once.
  - intros K m s ws tr s' ws' Hws Hrun.
    destruct (interleaving_run composite_transaction _ _ _ _ _ Hrun
                (composite_workers_submit ws Hws)) as [Hts E].
    pose proof (commits_once K m (map fst tr) s Hts) as Hc.
    unfold commits_on in Hc. by rewrite E in Hc.
Qed.

(** ** State life cycle *)

Lemma edges_from (ts : list Transaction) (key : string) :
  Forall composite_transaction ts →
  ∀ s,
    (state_at s key = waiting →
       sublist (edges ts s key) [ (waiting, idle); (idle, finished) ])
    ∧ (state_at s key = idle → sublist (edges ts s key) [ (idle, finished) ])
    ∧ (state_at s key ≠ waiting → state_at s key ≠ idle → edges ts s key = []).
Proof.
  induction 1 as [|t ts Ht _ IH]; intros s.
  { simpl. split; [|split]; intros; try done; apply sublist_nil_l. }
  destruct (composite_transaction_shape t Ht) as (this & command & st & Hshape).
  simpl. destruct (eval_transaction t s) as [r s1] eqn:E.
  destruct (shape_eval this command st t s Hshape r s1 E) as (Hc & _ & _ & Hk).
  specialize (Hk key). destruct (IH s1) as (IHw & IHi & IHo).
  destruct (is_committed r && writes_state key t) eqn:Hb.
  - apply andb_true_iff in Hb as [Hr _]. destruct r; try done.
    destruct (Hc eq_refl) as (_ & Hst & _).
    destruct Hk as (-> & v & Hv & [[-> ->]|[-> ->]]); rewrite Hst, Hv.
    + fold waiting idle. split; [|split]; try done.
      intros _. simpl. apply sublist_skip. by apply IHi.
    + fold idle finished. split; [|split]; try done.
      intros _. simpl. apply sublist_skip.
      rewrite IHo; [apply sublist_nil_l| |]; by rewrite Hv.
  - simpl. rewrite <- Hk. done.
Qed.

Lemma edges_forward (ts : list Transaction) (s : Store) (key : string) :
  Forall composite_transaction ts →
  sublist (edges ts s key) [ (waiting, idle); (idle, finished) ].
Proof.
  intros Hts. destruct (edges_from ts key Hts s) as (Hw & Hi & Ho).
  assert (Hcases : ∀ x : jsval, x = waiting ∨ x = idle ∨ (x ≠ waiting ∧ x ≠ idle)).
  { intros [[| | |x| |]|]; try (right; right; split; discriminate).
    destruct (decide (x = "waiting")) as [->|]; [by left|].
    destruct (decide (x = "idle")) as [->|]; [right; by left|].
    right; right. split; intros [=]; done. }
  destruct (Hcases (state_at s key)) as [H|[H|[H1 H2]]].
  - by apply Hw.
  - apply sublist_cons. by apply Hi.
  - rewrite Ho by done. apply sublist_nil_l.
Qed.

(** C3. The persisted state of a composite only moves forward along
    waiting, idle, finished, each edge taken at most once: a transaction of
    an activate handler validates [waiting] and, when it commits, leaves the
    record [idle]; a transaction of any other handler validates [idle] and,
    when it commits and writes the state, leaves the record [finished]; a
    transaction that does not commit leaves the store as it was, one that
    does not write the state leaves every state as it was; and along any
    run of such transactions, and any interleaving of workers that run
    composite handlers, the state changes of a record are a sublist of
    (waiting, idle), (idle, finished). *)
Theorem state_only_moves_forward :
  (∀ this command st p t,
     handler this command st p → submits p t →
     validate t = [ lock_check this command; state_check this st ] ∧
     (st = "waiting" → writes_state (record_key this) t = true) ∧
     ∀ s,
       let r := fst (eval_transaction t s) in
       let s' := snd (eval_transaction t s) in
       (r ≠ Committed → s' = s) ∧
       ∀ key,
         if is_committed r && writes_state key t
         then key = record_key this ∧
              ((st = "waiting" ∧ state_at s key = waiting ∧ state_at s' key = idle) ∨
               (st = "idle" ∧ state_at s key = idle ∧ state_at s' key = finished))
         else state_at s' key = state_at s key)
  ∧ (∀ ts s key,
       Forall composite_transaction ts →
       sublist (edges ts s key) [ (waiting, idle); (idle, finished) ])
  ∧ (∀ key s ws tr s' ws',
       Forall composite_worker ws →
       interleaving s ws tr s' ws' →
       sublist (edges (map fst tr) s key) [ (waiting, idle); (idle, finished) ]).
Proof.
  split; [|split].
  - intros this command st p t Hp Hs.
    pose proof (proj1 (always_submits _ _) (handler_shape _ _ _ _ Hp) t Hs) as Hshape.
    split; [apply Hshape|]. split; [apply Hshape|].
    intros s. destruct (eval_transaction t s) as [r s1] eqn:E. simpl.
    destruct (shape_eval this command st t s Hshape r s1 E) as (Hc & Hsame & _ & Hk).
    split; [exact Hsame|]. intros key. specialize (Hk key).
    destruct (is_committed r && writes_state key t) eqn:Hb; [|done].
    apply andb_true_iff in Hb as [Hr _]. destruct r; try done.
    destruct (Hc eq_refl) as (_ & Hst & _).
    destruct Hk as (-> & v & Hv & [[-> ->]|[-> ->]]); split; auto.
  - intros ts s key. apply edges_forward.
  - intros key s ws tr s' ws' Hws Hrun. apply edges_forward.
    apply (interleaving_run composite_transaction _ _ _ _ _ Hrun
             (composite_workers_submit ws Hws)).
Qed.

(** ** Handlers that stop early *)

(** C8. A group that receives [group_check] while [children_finished] is
    below the number of its children returns before any store call: the
    handler is the program that just returns, it submits no transaction,
    and a run leaves the world (store, events, calls) as it was; the locked
    command stays in [commands_locked]. *)
Theorem early_group_check_does_nothing (this : Task) (command : Command) :
  (children_finished this < length (children this))%nat →
  GroupTemplate.handleCommand_group_check this command = Ret tt
  ∧ (∀ t, ¬ submits (GroupTemplate.handleCommand_group_check this command) t)
  ∧ (∀ w, run (GroupTemplate.handleCommand_group_check this command) w = (inr tt, w))
  ∧ (∀ w K m,
       in_zset (w_store (snd (run (GroupTemplate.handleCommand_group_check this command) w)))
         K m = in_zset (w_store w) K m).
Proof.
  intros H. apply Nat.ltb_lt in H.
  assert (GroupTemplate.handleCommand_group_check this command = Ret tt) as E.
  { unfold GroupTemplate.handleCommand_group_check. by rewrite H. }
  rewrite E. split; [done|]. split; [|done].
  intros t Ht. inversion Ht.
Qed.

(** C10. The chain's result handler reads [command.data.result] on both of
    its paths: for a result command without [data] it throws a TypeError,
    having made only reads; no transaction is submitted, whatever the store
    replies, and the store and the events are as before. *)
Theorem chain_result_without_data_throws (this : Task) (command : Command) (w : World) :
  data command = None →
  let advancing := (children_finished this + 1 <? length (children this))%nat in
  ∃ w',
    run (ChainTemplate.handleCommand_result this command) w
    = (inl (TypeError "Cannot read properties of undefined (reading 'result')"), w')
    ∧ w_store w' = w_store w
    ∧ w_events w' = w_events w
    ∧ w_calls w'
      = (w_calls w ++
         CallTime ::
         (if advancing
          then [ CallGetRawTask (queue this)
                   (at_index (children this) (children_finished this + 1)) ]
          else []))%list
    ∧ ∀ t, ¬ submits (ChainTemplate.handleCommand_result this command) t.
Proof.
  intros Hd advancing. subst advancing.
  unfold ChainTemplate.handleCommand_result, data_result. rewrite Hd.
  destruct (_ <? _)%nat; simpl.
  - eexists. split; [reflexivity|]. simpl. split; [done|]. split; [done|].
    split; [by rewrite <- app_assoc|].
    intros t Ht. inversion Ht as [| | |? ? ? Ht'| | |]; subst. simpl in Ht'.
    inversion Ht' as [| | | |? ? ? ? ? Ht''| |]; subst. inversion Ht''.
  - eexists. split; [reflexivity|]. simpl. split; [done|]. split; [done|].
    split; [done|].
    intros t Ht. inversion Ht as [| | |? ? ? Ht'| | |]; subst. inversion Ht'.
Qed.

(** ** Preparation *)

(** C6. A chain or a group prepared with no children (the constructor got no
    task list and [init()] returned no array, or [init()] returned an empty
    array) rejects with its configuration error, and the run makes no store
    call: no record is written. *)
Theorem prepare_without_children_rejects (base : Task) (arg0 : FirstArg)
    (taskID : string) (init : JsError + option (list ChildTemplate)) (w : World) :
  init = inr (Some []) ∨ (init = inr None ∧ ∃ v, arg0 = OtherArg v) →
  run (ChainTemplate.prepare (construct base arg0) taskID init) w
  = (inl (Error "ido error: you should specify chain children"), w)
  ∧ run (GroupTemplate.prepare (construct base arg0) taskID init) w
    = (inl (Error "Queue error: you should specify group children"), w).
Proof.
  intros [->|[-> [v ->]]]; by split.
Qed.

(** ** Group completion *)

Lemma read_null (s : Store) (q : Queue) (ids : list string) :
  (∃ id, id ∈ ids ∧ hashes s !! (__prefix__ q ++ id) = None) →
  existsb GroupTemplate.is_null (read_raw_tasks s q ids) = true.
Proof.
  intros (id & Hid & Habs). apply existsb_exists. exists None. split; [|done].
  unfold read_raw_tasks. apply in_map_iff. exists id. split.
  - unfold read_raw_task. by rewrite Habs.
  - by apply list_elem_of_In.
Qed.

(** C4. A group whose terminal [group_check] (the command is locked, the
    group is idle, every child has reported) finds a child record deleted
    emits the error locally and submits one transaction that moves the
    group to [finished], writes the serialized error to its [error] field
    and, when the group has a parent, adds an [error] command (no [result]
    command) to the parent's pool; that transaction commits. *)
Theorem group_check_with_deleted_child (this : Task) (command : Command) (w : World) :
  (length (children this) ≤ children_finished this)%nat →
  (∃ id, id ∈ children this ∧
         hashes (w_store w) !! (__prefix__ (queue this) ++ id) = None) →
  in_zset (w_store w) (__prefix__ (queue this) ++ pool this ++ ":commands_locked")
    (toJSON command) = true →
  state_at (w_store w) (record_key this) = idle →
  let prefix := __prefix__ (queue this) in
  let err := GroupTemplate.children_deleted this in
  let to_parent :=
    toJSON {| to := default "" (parent this); to_uid := parent_uid this;
              type := "error";
              data := Some (object_of [ ("error", Some (serializeError err)) ]) |} in
  let ended := EndData (task_id this) (uid this) in
  ∃ t w',
    run (GroupTemplate.handleCommand_group_check this command) w = (inr tt, w')
    ∧ w_calls w'
      = (w_calls w ++
         [ CallTime; CallGetRawTasks (queue this) (children this); CallEval t ])%list
    ∧ validate t = [ lock_check this command; state_check this "idle" ]
    ∧ exec t
      = ([ srem (prefix ++ "idle") (task_id this);
           zadd (prefix ++ "finished") (removeDelay this + w_now w) (task_id this);
           hset (record_key this) "state" (JStr "finished") ] ++
         (if has_parent this
          then [ zadd (prefix ++ parent_pool this ++ ":commands") (w_now w) to_parent ]
          else []) ++
         [ hset (record_key this) "error" (serializeError err) ])%list
    ∧ w_events w'
      = (w_events w ++
         [ {| ev_name := "error"; ev_data := ErrorData err |};
           {| ev_name := "task:end"; ev_data := ended |};
           {| ev_name := "task:end:" ++ task_id this; ev_data := ended |} ])%list
    ∧ state_at (w_store w') (record_key this) = finished
    ∧ field_at (w_store w') (record_key this) "error" = Some (serializeError err)
    ∧ (has_parent this = true →
       score_at (w_store w') (prefix ++ parent_pool this ++ ":commands") to_parent
       = Some (w_now w)).
Proof.
  intros Hterm Hdel Hlock Hstate prefix err to_parent ended.
  unfold GroupTemplate.handleCommand_group_check.
  rewrite (proj2 (Nat.ltb_ge _ _) Hterm). simpl.
  rewrite (read_null _ _ _ Hdel). simpl.
  set (t := push_exec (if has_parent this then _ else _) _).
  assert (validate t = [ lock_check this command; state_check this "idle" ]) as Hv.
  { subst t. by destruct (has_parent this). }
  destruct (eval_commits this command "idle" t (w_store w)) as (s' & E & Hf & Hz);
    try done.
  { subst t. destruct (has_parent this); simpl; repeat constructor. }
  { subst t. by destruct (has_parent this). }
  rewrite E. exists t. eexists. split; [reflexivity|]. simpl.
  split; [by rewrite <- !app_assoc|]. split; [done|].
  split; [subst t; by destruct (has_parent this)|].
  split; [by rewrite <- !app_assoc|].
  unfold state_at. rewrite !Hf, Hz. subst t.
  unfold record_key, finished.
  destruct (has_parent this); simpl; unfold field_step, score_step; simpl;
    repeat (first [ rewrite decide_True by done
                  | rewrite decide_False by (by intros [??]) ]).
  all: by repeat split.
Qed.

(** ** Results *)

Lemma read_present (s : Store) (q : Queue) (ids : list string) :
  (∀ id, id ∈ ids → is_Some (hashes s !! (__prefix__ q ++ id))) →
  existsb GroupTemplate.is_null (read_raw_tasks s q ids) = false.
Proof.
  intros H. apply not_true_is_false. intros Hex.
  apply existsb_exists in Hex as (x & Hx & Hn).
  unfold read_raw_tasks in Hx. apply in_map_iff in Hx as (id & <- & Hid).
  apply list_elem_of_In, H in Hid as [h Hh].
  unfold read_raw_task in Hn. by rewrite Hh in Hn.
Qed.

Lemma read_result (s : Store) (q : Queue) (id : string) :
  read_raw_task s q id ≫= raw_result = field_at s (__prefix__ q ++ id) "result".
Proof. unfold read_raw_task, field_at. by destruct (hashes s !! _). Qed.

(** C5. On successful completion a chain's persisted result is the result
    carried by the result command that finishes it, and a group's persisted
    result is the sequence of its children's persisted results, one entry
    per child in the order of [children] (a child without a persisted
    result contributes null). *)
Theorem completion_persists_results :
  (∀ this command w R,
     (length (children this) ≤ children_finished this + 1)%nat →
     data_result command = inr (Some R) →
     in_zset (w_store w) (__prefix__ (queue this) ++ pool this ++ ":commands_locked")
       (toJSON command) = true →
     state_at (w_store w) (record_key this) = idle →
     (field_at (w_store w) (record_key this) "children_finished" = None ∨
      ∃ n, field_at (w_store w) (record_key this) "children_finished" = Some (JNum n)) →
     ∃ w',
       run (ChainTemplate.handleCommand_result this command) w = (inr tt, w')
       ∧ state_at (w_store w') (record_key this) = finished
       ∧ field_at (w_store w') (record_key this) "result" = Some R)
  ∧ (∀ this command w,
       (length (children this) ≤ children_finished this)%nat →
       (∀ id, id ∈ children this →
              is_Some (hashes (w_store w) !! (__prefix__ (queue this) ++ id))) →
       in_zset (w_store w) (__prefix__ (queue this) ++ pool this ++ ":commands_locked")
         (toJSON command) = true →
       state_at (w_store w) (record_key this) = idle →
       ∃ rs w',
         run (GroupTemplate.handleCommand_group_check this command) w = (inr tt, w')
         ∧ state_at (w_store w') (record_key this) = finished
         ∧ field_at (w_store w') (record_key this) "result" = Some (JArr rs)
         ∧ length rs = length (children this)
         ∧ ∀ i id, children this !! i = Some id →
             rs !! i
             = Some (default JNull
                       (field_at (w_store w) (__prefix__ (queue this) ++ id) "result"))).
Proof.
  split.
  - intros this command w R Hlast Hres Hlock Hstate Hcount.
    unfold ChainTemplate.handleCommand_result.
    rewrite (proj2 (Nat.ltb_ge _ _) Hlast), Hres. simpl.
    set (t := if has_parent this then _ else _).
    assert (validate t = [ lock_check this command; state_check this "idle" ]) as Hv.
    { subst t. by destruct (has_parent this). }
    destruct (eval_commits this command "idle" t (w_store w)) as (s' & E & Hf & Hz);
      try done.
    { subst t. destruct (has_parent this); simpl; repeat constructor. }
    { subst t. by destruct (has_parent this). }
    rewrite E. eexists. split; [reflexivity|]. simpl.
    unfold state_at. rewrite !Hf. subst t. unfold record_key, finished.
    destruct (has_parent this); simpl; unfold field_step; simpl;
      repeat (first [ rewrite decide_True by done
                    | rewrite decide_False by (by intros [??]) ]);
      by repeat split.
  - intros this command w Hterm Hall Hlock Hstate.
    unfold GroupTemplate.handleCommand_group_check.
    rewrite (proj2 (Nat.ltb_ge _ _) Hterm). simpl.
    rewrite (read_present _ _ _ Hall). simpl.
    set (t := if has_parent this then _ else _).
    assert (validate t = [ lock_check this command; state_check this "idle" ]) as Hv.
    { subst t. by destruct (has_parent this). }
    destruct (eval_commits this command "idle" t (w_store w)) as (s' & E & Hf & Hz);
      try done.
    { subst t. destruct (has_parent this); simpl; repeat constructor. }
    { subst t. by destruct (has_parent this). }
    rewrite E. eexists. eexists. split; [reflexivity|]. simpl.
    unfold state_at. rewrite !Hf. subst t. unfold record_key, finished.
    split; [|split; [|split]].
    + destruct (has_parent this); simpl; unfold field_step; simpl;
        repeat (first [ rewrite decide_True by done
                      | rewrite decide_False by (by intros [??]) ]); done.
    + destruct (has_parent this); simpl; unfold field_step; simpl;
        repeat (first [ rewrite decide_True by done
                      | rewrite decide_False by (by intros [??]) ]); reflexivity.
    + unfold read_raw_tasks. by rewrite !length_map.
    + intros i id Hi. unfold read_raw_tasks.
      rewrite !list_lookup_fmap, Hi. simpl. by rewrite read_result.
Qed.

(** ** The next child of a chain *)



(** ** Result feeding and absent children: what holds in general *)

(** A truthy result is appended to the next child's args. *)
Lemma chain_result_feeds_truthy (this : Task) (command : Command) (w : World)
    (r : json) (child : RawTask) (args : list json) (n : Z) :
  (children_finished this + 1 < length (children this))%nat →
  let prefix := __prefix__ (queue this) in
  let childID := at_index (children this) (children_finished this + 1) in
  data_result command = inr (Some r) →
  truthy (Some r) = true →
  read_raw_task (w_store w) (queue this) childID = Some child →
  field_at (w_store w) (prefix ++ childID) "args" = Some (JArr args) →
  in_zset (w_store w) (prefix ++ pool this ++ ":commands_locked")
    (toJSON command) = true →
  state_at (w_store w) (record_key this) = idle →
  field_at (w_store w) (record_key this) "children_finished" = Some (JNum n) →
  ∃ w',
    run (ChainTemplate.handleCommand_result this command) w = (inr tt, w')
    ∧ field_at (w_store w') (prefix ++ childID) "args" = Some (JArr (args ++ [ r ])).
Proof.
  intros Hnext prefix childID Hres Htruthy Hchild Hargs Hlock Hstate Hcount.
  unfold ChainTemplate.handleCommand_result.
  rewrite (proj2 (Nat.ltb_lt _ _) Hnext), Hres. simpl.
  fold childID. rewrite Hchild. simpl. simpl in Htruthy. rewrite Htruthy. simpl.
  fold prefix. rewrite Hargs. simpl.
  match goal with |- context [eval_transaction ?t0 _] => set (t := t0) end.
  destruct (eval_commits this command "idle" t (w_store w)) as (s' & E & Hf & Hz);
    try done.
  { simpl. repeat constructor. }
  { simpl. eauto. }
  rewrite E. eexists. split; [reflexivity|]. simpl.
  rewrite Hf. subst t. simpl. unfold field_step.
  by rewrite decide_True.
Qed.

(** A falsy result (absent, null, false, 0 or the empty string) is not: no
    transaction of the advancing path writes an [args] field. *)
Lemma chain_result_falsy_not_fed (this : Task) (command : Command) (res : jsval) :
  (children_finished this + 1 < length (children this))%nat →
  data_result command = inr res →
  truthy res = false →
  always (fun t => Forall (fun c => ∀ k v, c ≠ hset k "args" v) (exec t))
    (ChainTemplate.handleCommand_result this command).
Proof.
  intros Hnext Hres Hfalsy. unfold ChainTemplate.handleCommand_result.
  rewrite (proj2 (Nat.ltb_lt _ _) Hnext), Hres. simpl. intros time rawChild.
  rewrite Hfalsy. simpl. split; [|done].
  destruct rawChild; simpl; repeat constructor; discriminate.
Qed.

(** A chain whose first child's record is gone still moves to [idle]; its
    transaction has no outbound activate. *)
Lemma chain_activate_without_first_child (this : Task) (command : Command) (w : World) :
  hashes (w_store w) !! (__prefix__ (queue this) ++ at_index (children this) 0) = None →
  in_zset (w_store w) (__prefix__ (queue this) ++ pool this ++ ":commands_locked")
    (toJSON command) = true →
  state_at (w_store w) (record_key this) = waiting →
  ∃ t w',
    run (ChainTemplate.handleCommand_activate this command) w = (inr tt, w')
    ∧ w_calls w'
      = (w_calls w ++
         [ CallTime; CallGetRawTask (queue this) (at_index (children this) 0);
           CallEval t ])%list
    ∧ exec t = [ srem (__prefix__ (queue this) ++ "waiting") (task_id this);
                 sadd (__prefix__ (queue this) ++ "idle") (task_id this);
                 hset (record_key this) "state" (JStr "idle") ]
    ∧ state_at (w_store w') (record_key this) = idle.
Proof.
  intros Habs Hlock Hstate. unfold ChainTemplate.handleCommand_activate. simpl.
  unfold read_raw_task. rewrite Habs. simpl.
  match goal with |- context [eval_transaction ?t0 _] => set (t := t0) end.
  destruct (eval_commits this command "waiting" t (w_store w)) as (s' & E & Hf & Hz);
    try done.
  { simpl. repeat constructor. }
  rewrite E. exists t. eexists. split; [reflexivity|]. simpl.
  split; [by rewrite <- !app_assoc|]. split; [done|].
  unfold state_at. rewrite Hf. subst t. simpl. unfold field_step, record_key.
  by rewrite decide_True.
Qed.

(** ** Worked examples *)

Example feeds_seven :
  let c := command_to "c" "result" (result_from "a" (JNum 7)) in
  let out := run (ChainTemplate.handleCommand_result chain_ab c) (world_at (store_ab c true)) in
  fst out = inr tt
  ∧ field_at (w_store (snd out)) "idoit:b" "args" = Some (JArr [ JNum 1; JNum 7 ]).
Proof. vm_compute. by split. Qed.

(** C1. A chain that receives the result 0 from its first child advances
    (the counter is incremented, the next child is activated) but leaves the
    next child's persisted [args] as they were: the result is not appended,
    because the handler tests [command.data.result] for truthiness. *)
Theorem chain_drops_falsy_result :
  let c := command_to "c" "result" (result_from "a" (JNum 0)) in
  let out := run (ChainTemplate.handleCommand_result chain_ab c) (world_at (store_ab c true)) in
  fst out = inr tt
  ∧ field_at (w_store (snd out)) "idoit:c" "children_finished" = Some (JNum 1)
  ∧ score_at (w_store (snd out)) "idoit:default:commands"
      (toJSON (command_to "b" "activate" None)) = Some 100
  ∧ field_at (w_store (snd out)) "idoit:b" "args" = Some (JArr [ JNum 1 ])
  ∧ field_at (w_store (snd out)) "idoit:b" "args" ≠ Some (JArr [ JNum 1; JNum 0 ]).
Proof. vm_compute. repeat split; discriminate. Qed.

(** C7. A chain whose next child's record has been deleted and that
    receives a result 7 throws while it merges the child's args: it submits
    no transaction, [children_finished] stays as it was and the command
    stays locked. *)
Theorem chain_result_throws_when_next_child_deleted :
  let c := command_to "c" "result" (result_from "a" (JNum 7)) in
  let out := run (ChainTemplate.handleCommand_result chain_ab c) (world_at (store_ab c false)) in
  read_raw_task (store_ab c false) q0 "b" = None
  ∧ fst out = inl (TypeError "Cannot read properties of null (reading 'concat')")
  ∧ w_calls (snd out) = [ CallTime; CallGetRawTask q0 "b"; CallHget "idoit:b" "args" ]
  ∧ field_at (w_store (snd out)) "idoit:c" "children_finished" = Some (JNum 0)
  ∧ in_zset (w_store (snd out)) "idoit:default:commands_locked" (toJSON c) = true.
Proof. vm_compute. by repeat split. Qed.

(** *** Two workers race on the activate command of a chain *)

Lemma tx_activate_submitted :
  submits (ChainTemplate.handleCommand_activate chain_waiting activate_c) tx_activate.
Proof.
  unfold ChainTemplate.handleCommand_activate. simpl.
  apply submits_after_time with (r := 100). simpl.
  apply submits_after_task with (r := read_raw_task store_waiting q0 "a").
  apply submits_now.
Qed.

Lemma tx_activate_composite : composite_transaction tx_activate.
Proof.
  exists chain_waiting, activate_c, "waiting". eexists.
  split; [apply chain_activate | apply tx_activate_submitted].
Qed.

Lemma racers_are_composite : Forall composite_worker [ racer; racer ].
Proof.
  repeat constructor; exists chain_waiting, activate_c, "waiting"; apply chain_activate.
Qed.

Example race_has_one_winner :
  map snd (fst (run_transactions [ tx_activate; tx_activate ] store_waiting))
  = [ Committed; Rejected ]
  ∧ edges [ tx_activate; tx_activate ] store_waiting "idoit:c" = [ (waiting, idle) ]
  ∧ race.1.1 = [ (tx_activate, Committed); (tx_activate, Rejected) ]
  ∧ race.2 = [ Ret tt; Ret tt ].
Proof. vm_compute. by repeat split. Qed.

Lemma lock_removed_first_and_commits_once_witness :
  (handler chain_waiting activate_c "waiting"
     (ChainTemplate.handleCommand_activate chain_waiting activate_c)
   ∧ submits (ChainTemplate.handleCommand_activate chain_waiting activate_c) tx_activate
   ∧ head (validate tx_activate)
     = Some (RInt 1, zrem "idoit:default:commands_locked" (toJSON activate_c)))
  ∧ (Forall composite_transaction [ tx_activate; tx_activate ]
     ∧ (commits_on "idoit:default:commands_locked" (toJSON activate_c)
          [ tx_activate; tx_activate ] store_waiting ≤ 1)%nat)
  ∧ (Forall composite_worker [ racer; racer ]
     ∧ interleaving store_waiting [ racer; racer ] race.1.1 race.1.2 race.2
     ∧ (length (List.filter
                  (fun o => is_committed (snd o)
                            && takes_lock "idoit:default:commands_locked"
                                 (toJSON activate_c) (fst o)) race.1.1)
        ≤ 1)%nat).
Proof.
  split; [|split].
  - split; [apply chain_activate|]. split; [apply tx_activate_submitted|].
    apply (proj1 lock_removed_first_and_commits_once chain_waiting activate_c "waiting"
             _ tx_activate (chain_activate _ _) tx_activate_submitted).
  - assert (Forall composite_transaction [ tx_activate; tx_activate ]) as H.
    { repeat constructor; apply tx_activate_composite. }
    split; [exact H|].
    apply (proj1 (proj2 lock_removed_first_and_commits_once) _ _ _ store_waiting H).
  - split; [apply racers_are_composite|]. split; [apply play_interleaving|].
    apply (proj2 (proj2 lock_removed_first_and_commits_once) _ _ store_waiting
             [ racer; racer ] race.1.1 race.1.2 race.2
             racers_are_composite (play_interleaving _ _ _ _)).
Defined.

Lemma state_only_moves_forward_witness :
  (handler chain_waiting activate_c "waiting"
     (ChainTemplate.handleCommand_activate chain_waiting activate_c)
   ∧ submits (ChainTemplate.handleCommand_activate chain_waiting activate_c) tx_activate
   ∧ validate tx_activate
     = [ lock_check chain_waiting activate_c; state_check chain_waiting "waiting" ]
   ∧ writes_state "idoit:c" tx_activate = true)
  ∧ (Forall composite_transaction [ tx_activate; tx_activate ]
     ∧ sublist (edges [ tx_activate; tx_activate ] store_waiting "idoit:c")
         [ (waiting, idle); (idle, finished) ])
  ∧ (Forall composite_worker [ racer; racer ]
     ∧ interleaving store_waiting [ racer; racer ] race.1.1 race.1.2 race.2
     ∧ sublist (edges (map fst race.1.1) store_waiting "idoit:c")
         [ (waiting, idle); (idle, finished) ]).
Proof.
  split; [|split].
  - split; [apply chain_activate|]. split; [apply tx_activate_submitted|].
    destruct (proj1 state_only_moves_forward chain_waiting activate_c "waiting"
                _ tx_activate (chain_activate _ _) tx_activate_submitted)
      as (Hv & Hw & _).
    split; [exact Hv | exact (Hw eq_refl)].
  - assert (Forall composite_transaction [ tx_activate; tx_activate ]) as H.
    { repeat constructor; apply tx_activate_composite. }
    split; [exact H|].
    apply (proj1 (proj2 state_only_moves_forward) _ store_waiting "idoit:c" H).
  - split; [apply racers_are_composite|]. split; [apply play_interleaving|].
    apply (proj2 (proj2 state_only_moves_forward) "idoit:c" store_waiting
             [ racer; racer ] race.1.1 race.1.2 race.2
             racers_are_composite (play_interleaving _ _ _ _)).
Defined.

(** *** A group that loses a child, and one that completes *)

Lemma group_check_with_deleted_child_witness :
  ((length (children group_g) ≤ children_finished group_g)%nat
   ∧ "y" ∈ children group_g
   ∧ hashes (store_g false) !! "idoit:y" = None
   ∧ in_zset (store_g false) "idoit:default:commands_locked" (toJSON check_g) = true
   ∧ state_at (store_g false) "idoit:g" = idle)
  ∧ ∃ t w',
      run (GroupTemplate.handleCommand_group_check group_g check_g)
        (world_at (store_g false)) = (inr tt, w')
      ∧ length (exec t) = 5%nat
      ∧ state_at (w_store w') "idoit:g" = finished
      ∧ field_at (w_store w') "idoit:g" "error"
        = Some (serializeError (GroupTemplate.children_deleted group_g))
      ∧ score_at (w_store w') "idoit:default:commands"
          (toJSON {| to := "top"; to_uid := "u-top"; type := "error";
                     data := Some (object_of
                       [ ("error",
                          Some (serializeError
                                  (GroupTemplate.children_deleted group_g))) ]) |})
        = Some 100.
Proof.
  assert ((length (children group_g) ≤ children_finished group_g)%nat) as H1
    by (simpl; lia).
  assert ("y" ∈ children group_g) as H2 by (apply list_elem_of_In; simpl; auto).
  assert (hashes (store_g false) !! "idoit:y" = None) as H3 by (vm_compute; reflexivity).
  assert (in_zset (store_g false) "idoit:default:commands_locked" (toJSON check_g) = true)
    as H4 by (vm_compute; reflexivity).
  assert (state_at (store_g false) "idoit:g" = idle) as H5 by (vm_compute; reflexivity).
  split; [done|].
  destruct (group_check_with_deleted_child group_g check_g (world_at (store_g false))
              H1 (ex_intro _ "y" (conj H2 H3)) H4 H5)
    as (t & w' & Hrun & _ & _ & Hx & _ & Hst & Herr & Hsc).
  exists t, w'. split; [exact Hrun|]. split; [by rewrite Hx|].
  split; [exact Hst|]. split; [exact Herr|].
  exact (Hsc eq_refl).
Defined.

Lemma completion_persists_results_witness :
  (((length (children chain_last) ≤ children_finished chain_last + 1)%nat
    ∧ data_result result_b = inr (Some (JNum 8))
    ∧ in_zset store_last "idoit:default:commands_locked" (toJSON result_b) = true
    ∧ state_at store_last "idoit:c" = idle)
   ∧ ∃ w',
       run (ChainTemplate.handleCommand_result chain_last result_b) (world_at store_last)
       = (inr tt, w')
       ∧ state_at (w_store w') "idoit:c" = finished
       ∧ field_at (w_store w') "idoit:c" "result" = Some (JNum 8))
  ∧ (((length (children group_g) ≤ children_finished group_g)%nat
      ∧ in_zset (store_g true) "idoit:default:commands_locked" (toJSON check_g) = true
      ∧ state_at (store_g true) "idoit:g" = idle)
     ∧ ∃ rs w',
         run (GroupTemplate.handleCommand_group_check group_g check_g)
           (world_at (store_g true)) = (inr tt, w')
         ∧ field_at (w_store w') "idoit:g" "result" = Some (JArr rs)
         ∧ length rs = 2%nat
         ∧ rs !! 0%nat = Some (JStr "a")
         ∧ rs !! 1%nat = Some (JStr "b")).
Proof.
  split.
  - assert ((length (children chain_last) ≤ children_finished chain_last + 1)%nat) as H1
      by (simpl; lia).
    assert (data_result result_b = inr (Some (JNum 8))) as H2 by reflexivity.
    assert (in_zset store_last "idoit:default:commands_locked" (toJSON result_b) = true)
      as H3 by (vm_compute; reflexivity).
    assert (state_at store_last "idoit:c" = idle) as H4 by (vm_compute; reflexivity).
    split; [done|].
    apply (proj1 completion_persists_results chain_last result_b (world_at store_last)
             (JNum 8) H1 H2 H3 H4).
    right. exists 1. vm_compute. reflexivity.
  - assert ((length (children group_g) ≤ children_finished group_g)%nat) as H1
      by (simpl; lia).
    assert (in_zset (store_g true) "idoit:default:commands_locked" (toJSON check_g) = true)
      as H3 by (vm_compute; reflexivity).
    assert (state_at (store_g true) "idoit:g" = idle) as H4 by (vm_compute; reflexivity).
    split; [done|].
    assert (∀ id, id ∈ children group_g →
                  is_Some (hashes (w_store (world_at (store_g true)))
                             !! (__prefix__ (queue group_g) ++ id))) as H2.
    { intros id Hid. apply list_elem_of_In in Hid. simpl in Hid.
      destruct Hid as [<-|[<-|[]]]; vm_compute; eauto. }
    destruct (proj2 completion_persists_results group_g check_g (world_at (store_g true))
                H1 H2 H3 H4) as (rs & w' & Hrun & _ & Hres & Hlen & Hat).
    exists rs, w'. split; [exact Hrun|]. split; [exact Hres|]. split; [exact Hlen|].
    split; [exact (Hat 0%nat "x" eq_refl) | exact (Hat 1%nat "y" eq_refl)].
Defined.

(** *** Preparation *)

Example prepare_links_children :
  let out := run (ChainTemplate.prepare
                    (construct blank (TaskList (leaf "a" 1) [ leaf "b" 2 ]))
                    "c" (inr None)) (world_at empty_store) in
  ∃ me kids,
    fst out = inr (me, kids)
    ∧ task_id me = "c"
    ∧ children me = [ "a"; "b" ]
    ∧ children_finished me = 0%nat
    ∧ total me = 3
    ∧ map parent kids = [ Some "c"; Some "c" ]
    ∧ snd out = world_at empty_store.
Proof. vm_compute. eexists _, _. by repeat split. Qed.

Lemma prepare_without_children_rejects_witness :
  (@inr JsError (option (list ChildTemplate)) None = inr None
   ∧ OtherArg (Some (JArr [])) = OtherArg (Some (JArr [])))
  ∧ run (ChainTemplate.prepare (construct blank (OtherArg (Some (JArr [])))) "c" (inr None))
      (world_at empty_store)
    = (inl (Error "ido error: you should specify chain children"), world_at empty_store)
  ∧ run (GroupTemplate.prepare (construct blank (OtherArg (Some (JArr [])))) "c" (inr None))
      (world_at empty_store)
    = (inl (Error "Queue error: you should specify group children"), world_at empty_store).
Proof.
  split; [by split|].
  apply prepare_without_children_rejects. right. split; [reflexivity|]. by eexists.
Defined.

(** *** Early group_check, commands without data, any sender *)

Lemma early_group_check_does_nothing_witness :
  (children_finished group_early < length (children group_early))%nat
  ∧ GroupTemplate.handleCommand_group_check group_early check_g = Ret tt
  ∧ run (GroupTemplate.handleCommand_group_check group_early check_g)
      (world_at (store_g true)) = (inr tt, world_at (store_g true)).
Proof.
  assert ((children_finished group_early < length (children group_early))%nat) as H
    by (simpl; lia).
  split; [exact H|].
  destruct (early_group_check_does_nothing group_early check_g H) as (E & _ & Hrun & _).
  split; [exact E | apply Hrun].
Defined.

Lemma chain_result_without_data_throws_witness :
  data result_no_data = None
  ∧ ∃ w',
      run (ChainTemplate.handleCommand_result chain_ab result_no_data)
        (world_at (store_ab result_no_data true))
      = (inl (TypeError "Cannot read properties of undefined (reading 'result')"), w')
      ∧ w_store w' = store_ab result_no_data true.
Proof.
  split; [reflexivity|].
  destruct (chain_result_without_data_throws chain_ab result_no_data
              (world_at (store_ab result_no_data true)) eq_refl)
    as (w' & Hrun & Hs & _).
  exists w'. split; [exact Hrun | exact Hs].
Defined.


Lemma tx_advance_submitted :
  submits (ChainTemplate.handleCommand_result chain_ab result_a7) tx_advance.
Proof.
  unfold ChainTemplate.handleCommand_result. simpl.
  apply submits_after_time with (r := 100). simpl.
  apply submits_after_task with (r := read_raw_task (store_ab result_a7 true) q0 "b").
  apply submits_after_hget with (r := Some (JArr [ JNum 1 ])).
  apply submits_now.
Qed.


(** * Further properties of the handlers *)

(** ** Views of the store after a transaction *)

Lemma redis_call_members (c : RedisCmd) (s s' : Store) (r : Reply) :
  redis_call c s = Some (r, s') →
  ∀ k m, member_at s' k m = member_step c (member_at s) k m.
Proof.
  intros H k m. unfold member_at, set_at.
  destruct c; simpl in H;
    try (destruct (field_at s key field) as [[]|]); simplify_eq; simpl; try done.
  - destruct (decide (key = k)) as [->|Hk].
    + rewrite lookup_insert_eq. simpl.
      destruct (decide (member = m)) as [->|Hm].
      * rewrite decide_True by done. apply bool_decide_eq_false.
        rewrite elem_of_difference, elem_of_singleton. by intros [_ ?].
      * rewrite decide_False by (intros [_ ?]; done).
        apply bool_decide_ext.
        rewrite elem_of_difference, elem_of_singleton. split; [by intros [? _]|done].
    + rewrite lookup_insert_ne by done.
      rewrite decide_False by (intros [? _]; done). done.
  - destruct (decide (key = k)) as [->|Hk].
    + rewrite lookup_insert_eq. simpl.
      destruct (decide (member = m)) as [->|Hm].
      * rewrite decide_True by done. apply bool_decide_eq_true.
        rewrite elem_of_union, elem_of_singleton. by left.
      * rewrite decide_False by (intros [_ ?]; done).
        apply bool_decide_ext.
        rewrite elem_of_union, elem_of_singleton. split; [by intros [?|?]|by right].
    + rewrite lookup_insert_ne by done.
      rewrite decide_False by (intros [? _]; done). done.
Qed.

Lemma members_after_ext (cmds : list RedisCmd) (F G : string → string → bool) :
  (∀ k m, F k m = G k m) → ∀ k m, members_after cmds F k m = members_after cmds G k m.
Proof.
  revert F G. induction cmds as [|c cmds IH]; intros F G H k m; simpl; [done|].
  apply IH. intros k' m'. unfold member_step. destruct c; try done; by case_decide.
Qed.

Lemma run_exec_members (cmds : list RedisCmd) (s s' : Store) :
  run_exec cmds s = (Committed, s') →
  ∀ k m, member_at s' k m = members_after cmds (member_at s) k m.
Proof.
  revert s. induction cmds as [|c cmds IH]; intros s H; simpl in H.
  { by simplify_eq. }
  destruct (redis_call c s) as [[r0 s0]|] eqn:E; [|done].
  intros k m. rewrite (IH s0 H). simpl. apply members_after_ext.
  apply (redis_call_members _ _ _ _ E).
Qed.

(** A committed transaction of a composite, seen through the three views. *)
Lemma committed_views (this : Task) (command : Command) (st : string)
    (t : Transaction) (s s' : Store) :
  validate t = [ lock_check this command; state_check this st ] →
  eval_transaction t s = (Committed, s') →
  (∀ k f, field_at s' k f = fields_after (exec t) (field_at s) k f)
  ∧ (∀ k m, score_at s' k m
            = scores_after
                (zrem (__prefix__ (queue this) ++ pool this ++ ":commands_locked")
                   (toJSON command) :: exec t)
                (score_at s) k m)
  ∧ (∀ k m, member_at s' k m = members_after (exec t) (member_at s) k m).
Proof.
  intros Hv H. unfold eval_transaction in H. rewrite Hv in H.
  destruct (run_validate_composite this command st s) as (s1 & E & Hf & Hz & Hs).
  rewrite E in H. clear E.
  destruct (in_zset _ _ _); [|done]. destruct (reply_eqb _ _); [|done].
  destruct (run_exec (exec t) s1) as [r2 s2] eqn:Hx. destruct r2; simplify_eq.
  destruct (run_exec_views _ _ _ Hx) as [Hf' Hz'].
  split; [|split].
  - intros k f. rewrite Hf'. by apply fields_after_ext.
  - intros k m. rewrite Hz'. simpl. by apply scores_after_ext.
  - intros k m. rewrite (run_exec_members _ _ _ Hx). apply members_after_ext.
    intros k' m'. unfold member_at, set_at. by rewrite Hs.
Qed.

(** Without the lock the first check fails: the removal finds nothing to
    remove, and nothing happens. *)
Lemma eval_unlocked (this : Task) (command : Command) (st : string)
    (t : Transaction) (s : Store) :
  validate t = [ lock_check this command; state_check this st ] →
  in_zset s (__prefix__ (queue this) ++ pool this ++ ":commands_locked")
    (toJSON command) = false →
  eval_transaction t s = (Rejected, s).
Proof.
  intros Hv H. unfold eval_transaction. rewrite Hv.
  destruct (run_validate_composite this command st s) as (s1 & E & _).
  by rewrite E, H.
Qed.

Lemma append_inj (p a b : string) : p ++ a = p ++ b → a = b.
Proof.
  induction p as [|c p IH]; [done|].
  change (String c (p ++ a) = String c (p ++ b) → a = b). intros H. apply IH. congruence.
Qed.

Lemma fields_after_app (c1 c2 : list RedisCmd) (F : string → string → jsval) :
  fields_after (c1 ++ c2) F = fields_after c2 (fields_after c1 F).
Proof. apply fold_left_app. Qed.

Lemma scores_after_app (c1 c2 : list RedisCmd) (Z0 : string → string → option Z) :
  scores_after (c1 ++ c2) Z0 = scores_after c2 (scores_after c1 Z0).
Proof. apply fold_left_app. Qed.

Lemma members_after_app (c1 c2 : list RedisCmd) (M : string → string → bool) :
  members_after (c1 ++ c2) M = members_after c2 (members_after c1 M).
Proof. apply fold_left_app. Qed.

Lemma only_adds_views (cmds : list RedisCmd) :
  Forall only_adds cmds →
  ∀ F M, (∀ k f, fields_after cmds F k f = F k f)
         ∧ (∀ k m, members_after cmds M k m = M k m).
Proof.
  induction 1 as [|c cmds Hc _ IH]; intros F M; [done|].
  destruct c; try done. simpl. apply IH.
Qed.

Lemma scores_after_kept (sc : Z) (cmds : list RedisCmd) :
  Forall (adds_at sc) cmds →
  ∀ Z0 k m, Z0 k m = Some sc → scores_after cmds Z0 k m = Some sc.
Proof.
  induction 1 as [|c cmds Hc _ IH]; intros Z0 k m H; [done|].
  simpl. apply IH. destruct c; simpl in *; try done.
  case_decide; congruence.
Qed.

Lemma scores_after_added (sc : Z) (cmds : list RedisCmd) :
  Forall (adds_at sc) cmds →
  ∀ Z0 k m, In (zadd k sc m) cmds → scores_after cmds Z0 k m = Some sc.
Proof.
  induction 1 as [|c cmds Hc Hcs IH]; intros Z0 k m Hin; [done|].
  destruct Hin as [->|Hin]; simpl.
  - apply scores_after_kept; [done|]. unfold score_step. by rewrite decide_True.
  - by apply IH.
Qed.

Lemma commands_not_finished (p x : string) : p ++ x ++ ":commands" ≠ p ++ "finished".
Proof.
  intros H. apply append_inj in H. apply (f_equal chars) in H.
  rewrite chars_app in H. apply (f_equal length) in H.
  rewrite length_app in H. simpl in H. lia.
Qed.

Local Ltac decide_keys :=
  repeat (first [ rewrite decide_True by done
                | rewrite decide_False by (by intros [??])
                | rewrite decide_False
                    by (let H := fresh in
                        intros [H _]; apply append_inj in H; discriminate)
                | rewrite decide_False
                    by (let H := fresh in
                        intros [H _]; by apply commands_not_finished in H) ]).

(** ** Activation of a group *)

Lemma activate_of_adds (prefix : string) (time : Z) (l : list RawTask) :
  Forall only_adds (map (activate_of prefix time) l)
  ∧ Forall (adds_at time) (map (activate_of prefix time) l).
Proof. split; apply Forall_fmap, Forall_forall; by intros. Qed.

Lemma length_omap_le {A B : Type} (f : A → option B) (l : list A) :
  (length (omap f l) ≤ length l)%nat.
Proof.
  induction l as [|x l IH]; [done|].
  change (omap f (x :: l))
    with (match f x with Some y => y :: omap f l | None => omap f l end).
  destruct (f x); simpl; lia.
Qed.

(** What the loop appends. *)
Lemma activate_children_exec (prefix : string) (time : Z)
    (rawChildren : list (option RawTask)) (n i : nat) (t : Transaction) :
  validate (GroupTemplate.activate_children prefix time rawChildren i n t) = validate t
  ∧ exec (GroupTemplate.activate_children prefix time rawChildren i n t)
    = (exec t ++
       map (activate_of prefix time) (omap id (take n (drop i rawChildren))))%list.
Proof.
  revert i t. induction n as [|n IH]; intros i t; simpl.
  { by rewrite app_nil_r. }
  destruct (IH (S i)
              match mjoin (rawChildren !! i) with
              | Some rawChild =>
                  push_exec t
                    (zadd (prefix ++ raw_pool rawChild ++ ":commands") time
                       (toJSON {| to := raw_id rawChild; to_uid := raw_uid rawChild;
                                  type := "activate"; data := None |}))
              | None => t
              end) as [Hv Hx].
  rewrite Hv, Hx. clear IH Hv Hx.
  destruct (rawChildren !! i) as [o|] eqn:Hi.
  - rewrite (drop_S _ _ _ Hi). destruct o as [c|]; simpl.
    + split; [done|]. rewrite <- app_assoc. reflexivity.
    + split; reflexivity.
  - rewrite (drop_ge rawChildren i), (drop_ge rawChildren (S i)).
    + rewrite take_nil. simpl. by rewrite app_nil_r.
    + apply lookup_ge_None in Hi. lia.
    + by apply lookup_ge_None.
Qed.

(** X1. The loop of the group's activate handler over [i < n] appends to
    the exec block, in the order of the indices, one [activate] command for
    each entry of [rawChildren] from index [i] on that is neither missing
    nor null, at most [n] entries being looked at (so at most [n] commands
    are sent, and none when [i] is past the end of [rawChildren]); the
    validate block is left as it was. *)
Theorem activate_children_appends (prefix : string) (time : Z)
    (rawChildren : list (option RawTask)) (n i : nat) (t : Transaction) :
  let sent := omap id (take n (drop i rawChildren)) in
  validate (GroupTemplate.activate_children prefix time rawChildren i n t) = validate t
  ∧ exec (GroupTemplate.activate_children prefix time rawChildren i n t)
    = (exec t ++ map (activate_of prefix time) sent)%list
  ∧ (length sent ≤ n)%nat
  ∧ (length rawChildren ≤ i → sent = [])%nat.
Proof.
  intros sent. destruct (activate_children_exec prefix time rawChildren n i t) as [Hv Hx].
  split; [exact Hv|]. split; [exact Hx|]. split.
  - subst sent. etransitivity; [apply length_omap_le|].
    rewrite length_take. lia.
  - intros Hi. subst sent. by rewrite drop_ge, take_nil.
Qed.

(** X2. A group that receives its locked [activate] command while
    [waiting] reads the clock and all child records, and commits one
    transaction: the group moves from the set of waiting tasks to the set
    of idle ones, its state becomes [idle], and every child whose record
    exists gets an [activate] command in the commands of its own pool,
    scored with the time read; children whose record is gone are passed
    over. No event is emitted. *)
Theorem group_activate_fans_out (this : Task) (command : Command) (w : World) :
  in_zset (w_store w) (__prefix__ (queue this) ++ pool this ++ ":commands_locked")
    (toJSON command) = true →
  state_at (w_store w) (record_key this) = waiting →
  let prefix := __prefix__ (queue this) in
  let present := omap id (read_raw_tasks (w_store w) (queue this) (children this)) in
  ∃ t w',
    run (GroupTemplate.handleCommand_activate this command) w = (inr tt, w')
    ∧ w_calls w'
      = (w_calls w ++
         [ CallTime; CallGetRawTasks (queue this) (children this); CallEval t ])%list
    ∧ w_events w' = w_events w
    ∧ exec t
      = ([ srem (prefix ++ "waiting") (task_id this);
           sadd (prefix ++ "idle") (task_id this);
           hset (record_key this) "state" (JStr "idle") ] ++
         map (activate_of prefix (w_now w)) present)%list
    ∧ state_at (w_store w') (record_key this) = idle
    ∧ member_at (w_store w') (prefix ++ "waiting") (task_id this) = false
    ∧ member_at (w_store w') (prefix ++ "idle") (task_id this) = true
    ∧ ∀ child, In child present →
        score_at (w_store w') (prefix ++ raw_pool child ++ ":commands")
          (toJSON {| to := raw_id child; to_uid := raw_uid child;
                     type := "activate"; data := None |})
        = Some (w_now w).
Proof.
  intros Hlock Hstate prefix present.
  unfold GroupTemplate.handleCommand_activate. simpl.
  match goal with |- context [eval_transaction ?t0 _] => set (t := t0) end.
  assert (validate t = [ lock_check this command; state_check this "waiting" ]
          ∧ exec t
            = ([ srem (prefix ++ "waiting") (task_id this);
                 sadd (prefix ++ "idle") (task_id this);
                 hset (record_key this) "state" (JStr "idle") ] ++
               map (activate_of prefix (w_now w)) present)%list) as [Hv Hx].
  { subst t present.
    match goal with
    | |- context [GroupTemplate.activate_children ?p ?tm ?raw ?i ?n ?t0] =>
        destruct (activate_children_exec p tm raw n i t0) as [Hv Hx]
    end.
    rewrite Hv, Hx. simpl. rewrite drop_0, take_ge; [done|].
    unfold read_raw_tasks. rewrite length_map. lia. }
  destruct (activate_of_adds prefix (w_now w) present) as [Hadds Hat].
  destruct (eval_commits this command "waiting" t (w_store w)) as (s' & E & _);
    try done.
  { rewrite Hx. simpl. do 2 (apply List.Forall_cons; [exact I|]).
    eapply Forall_impl; [exact Hadds|]. by intros []. }
  { by rewrite Hx. }
  destruct (committed_views this command "waiting" t _ _ Hv E) as (Hf & Hz & Hm).
  rewrite E. exists t. eexists. split; [reflexivity|]. simpl.
  split; [by rewrite <- !app_assoc|]. split; [done|]. split; [exact Hx|].
  unfold state_at. rewrite Hf, !Hm, Hx.
  rewrite fields_after_app, !members_after_app.
  rewrite (proj1 (only_adds_views _ Hadds _ (fun _ _ => false))).
  rewrite !(proj2 (only_adds_views _ Hadds (fun _ _ => None) _)).
  simpl. unfold field_step, member_step, record_key, idle. fold prefix. decide_keys.
  split; [done|]. split; [done|]. split; [done|].
  intros child Hchild. rewrite Hz, Hx.
  rewrite app_comm_cons, scores_after_app. apply scores_after_added; [done|].
  apply in_map_iff. by exists child.
Qed.

(** ** One step of a group *)

(** X3. A group that receives a locked [result] command while [idle]
    commits one transaction, whatever the command carries and however many
    children have reported: the persisted counter [children_finished] goes
    up by one, a [group_check] command to the group itself is added to the
    commands of its own pool with the time read, and no other field is
    written (the child's result is not stored by this handler). *)
Theorem group_result_counts_and_checks (this : Task) (command : Command) (w : World)
    (n : Z) :
  in_zset (w_store w) (__prefix__ (queue this) ++ pool this ++ ":commands_locked")
    (toJSON command) = true →
  state_at (w_store w) (record_key this) = idle →
  field_at (w_store w) (record_key this) "children_finished" = Some (JNum n) →
  let prefix := __prefix__ (queue this) in
  let check := toJSON {| to := task_id this; to_uid := uid this;
                         type := "group_check"; data := None |} in
  ∃ t w',
    run (GroupTemplate.handleCommand_result this command) w = (inr tt, w')
    ∧ w_calls w' = (w_calls w ++ [ CallTime; CallEval t ])%list
    ∧ w_events w' = w_events w
    ∧ exec t = [ hincrby (record_key this) "children_finished" 1;
                 zadd (prefix ++ pool this ++ ":commands") (w_now w) check ]
    ∧ field_at (w_store w') (record_key this) "children_finished" = Some (JNum (n + 1))
    ∧ score_at (w_store w') (prefix ++ pool this ++ ":commands") check = Some (w_now w)
    ∧ (∀ k f, ¬ (k = record_key this ∧ f = "children_finished") →
              field_at (w_store w') k f = field_at (w_store w) k f)
    ∧ (∀ k m, member_at (w_store w') k m = member_at (w_store w) k m).
Proof.
  intros Hlock Hstate Hcount prefix check. subst prefix.
  unfold GroupTemplate.handleCommand_result. simpl.
  match goal with |- context [eval_transaction ?t0 _] => set (t := t0) end.
  destruct (eval_commits this command "idle" t (w_store w)) as (s' & E & _);
    try done.
  { simpl. repeat constructor. }
  { simpl. eauto. }
  destruct (committed_views this command "idle" t _ _ eq_refl E) as (Hf & Hz & Hm).
  rewrite E. exists t. eexists. split; [reflexivity|]. simpl.
  split; [by rewrite <- !app_assoc|]. split; [done|]. split; [done|].
  rewrite Hf, Hz. subst t. unfold record_key in *. simpl.
  unfold field_step, score_step. decide_keys. rewrite Hcount.
  split; [done|]. split; [done|]. split.
  - intros k f Hk. rewrite Hf. simpl. unfold field_step.
    rewrite decide_False; [done|]. intros [<- <-]. by apply Hk.
  - intros k m. by rewrite Hm.
Qed.

(** ** The first and the last step of a chain *)

(** X4. A chain that receives its locked [activate] command while [waiting]
    reads the clock and the record of [children[0]], and commits one
    transaction: the chain moves from the set of waiting tasks to the set of
    idle ones, its state becomes [idle], and the first child, when its
    record exists, gets an [activate] command in the commands of its pool
    with the time read. No event is emitted. *)
Theorem chain_activate_moves_to_idle (this : Task) (command : Command) (w : World) :
  in_zset (w_store w) (__prefix__ (queue this) ++ pool this ++ ":commands_locked")
    (toJSON command) = true →
  state_at (w_store w) (record_key this) = waiting →
  let prefix := __prefix__ (queue this) in
  let first := read_raw_task (w_store w) (queue this) (at_index (children this) 0) in
  ∃ t w',
    run (ChainTemplate.handleCommand_activate this command) w = (inr tt, w')
    ∧ w_calls w'
      = (w_calls w ++
         [ CallTime; CallGetRawTask (queue this) (at_index (children this) 0);
           CallEval t ])%list
    ∧ w_events w' = w_events w
    ∧ exec t
      = ([ srem (prefix ++ "waiting") (task_id this);
           sadd (prefix ++ "idle") (task_id this);
           hset (record_key this) "state" (JStr "idle") ] ++
         match first with
         | Some child => [ activate_of prefix (w_now w) child ]
         | None => []
         end)%list
    ∧ state_at (w_store w') (record_key this) = idle
    ∧ member_at (w_store w') (prefix ++ "waiting") (task_id this) = false
    ∧ member_at (w_store w') (prefix ++ "idle") (task_id this) = true
    ∧ ∀ child, first = Some child →
        score_at (w_store w') (prefix ++ raw_pool child ++ ":commands")
          (toJSON {| to := raw_id child; to_uid := raw_uid child;
                     type := "activate"; data := None |})
        = Some (w_now w).
Proof.
  intros Hlock Hstate prefix first. subst prefix.
  unfold ChainTemplate.handleCommand_activate. simpl. fold first.
  match goal with |- context [eval_transaction ?t0 _] => set (t := t0) end.
  assert (validate t = [ lock_check this command; state_check this "waiting" ]) as Hv.
  { subst t. by destruct first. }
  destruct (eval_commits this command "waiting" t (w_store w)) as (s' & E & _);
    try done.
  { subst t. destruct first; simpl; repeat constructor. }
  { subst t. by destruct first. }
  destruct (committed_views this command "waiting" t _ _ Hv E) as (Hf & Hz & Hm).
  rewrite E. exists t. eexists. split; [reflexivity|]. simpl.
  split; [by rewrite <- !app_assoc|]. split; [done|].
  split; [subst t; by destruct first|].
  unfold state_at. rewrite Hf, !Hm. subst t. unfold record_key, idle.
  split; [|split; [|split]].
  - destruct first; simpl; unfold field_step; by decide_keys.
  - destruct first; simpl; unfold member_step; by decide_keys.
  - destruct first; simpl; unfold member_step; by decide_keys.
  - intros child ->. rewrite Hz. simpl. unfold score_step.
    by rewrite decide_True.
Qed.




(** ** A chain between two children *)

(** X7. A result command whose result is falsy ([undefined], [null],
    [false], 0 or the empty string) advances a chain without touching the
    next child's args: the handler reads the clock and the next child's
    record and nothing else, and commits a transaction that increments the
    counter and, when the next child's record exists, sends it [activate];
    no field other than the counter is written, and this holds just as well
    when the next child's record is gone. *)
Theorem chain_advance_falsy_result (this : Task) (command : Command) (w : World)
    (res : jsval) (n : Z) :
  (children_finished this + 1 < length (children this))%nat →
  data_result command = inr res →
  truthy res = false →
  in_zset (w_store w) (__prefix__ (queue this) ++ pool this ++ ":commands_locked")
    (toJSON command) = true →
  state_at (w_store w) (record_key this) = idle →
  field_at (w_store w) (record_key this) "children_finished" = Some (JNum n) →
  let prefix := __prefix__ (queue this) in
  let childID := at_index (children this) (children_finished this + 1) in
  let next := read_raw_task (w_store w) (queue this) childID in
  ∃ t w',
    run (ChainTemplate.handleCommand_result this command) w = (inr tt, w')
    ∧ w_calls w'
      = (w_calls w ++ [ CallTime; CallGetRawTask (queue this) childID; CallEval t ])%list
    ∧ w_events w' = w_events w
    ∧ exec t
      = (hincrby (record_key this) "children_finished" 1 ::
         match next with
         | Some child =>
             [ zadd (prefix ++ raw_pool child ++ ":commands") (w_now w)
                 (toJSON {| to := childID; to_uid := raw_uid child;
                            type := "activate"; data := None |}) ]
         | None => []
         end)
    ∧ field_at (w_store w') (record_key this) "children_finished" = Some (JNum (n + 1))
    ∧ (∀ k f, ¬ (k = record_key this ∧ f = "children_finished") →
              field_at (w_store w') k f = field_at (w_store w) k f)
    ∧ (∀ child, next = Some child →
         score_at (w_store w') (prefix ++ raw_pool child ++ ":commands")
           (toJSON {| to := childID; to_uid := raw_uid child;
                      type := "activate"; data := None |})
         = Some (w_now w)).
Proof.
  intros Hnext Hres Hfalsy Hlock Hstate Hcount prefix childID next. subst prefix.
  unfold ChainTemplate.handleCommand_result.
  rewrite (proj2 (Nat.ltb_lt _ _) Hnext), Hres. simpl.
  fold childID. fold next. rewrite Hfalsy. simpl.
  match goal with |- context [eval_transaction ?t0 _] => set (t := t0) end.
  assert (validate t = [ lock_check this command; state_check this "idle" ]) as Hv.
  { subst t. by destruct next. }
  destruct (eval_commits this command "idle" t (w_store w)) as (s' & E & _);
    try done.
  { subst t. destruct next; simpl; repeat constructor. }
  { subst t. destruct next; simpl; eauto. }
  destruct (committed_views this command "idle" t _ _ Hv E) as (Hf & Hz & _).
  rewrite E. exists t. eexists. split; [reflexivity|]. simpl.
  split; [by rewrite <- !app_assoc|]. split; [done|].
  split; [subst t; by destruct next|].
  subst t. unfold record_key in *. split; [|split].
  - rewrite Hf. destruct next; simpl; unfold field_step; decide_keys;
      by rewrite Hcount.
  - intros k f Hk. rewrite Hf.
    destruct next; simpl; unfold field_step;
      (rewrite decide_False; [done|]; intros [<- <-]; by apply Hk).
  - intros child ->. rewrite Hz. simpl. unfold score_step. by rewrite decide_True.
Qed.

(** X8. A truthy result cannot be merged into args that are not there: when
    the next child's [args] field is absent (its record was deleted) or
    holds [null], the handler throws the TypeError of calling [concat] on
    [null] right after reading that field. No transaction is submitted: the
    store is as it was, so the counter is not incremented and the command
    stays locked. *)
Theorem chain_advance_throws_without_args (this : Task) (command : Command) (w : World)
    (res : jsval) :
  (children_finished this + 1 < length (children this))%nat →
  data_result command = inr res →
  truthy res = true →
  let prefix := __prefix__ (queue this) in
  let childID := at_index (children this) (children_finished this + 1) in
  field_at (w_store w) (prefix ++ childID) "args" = None
  ∨ field_at (w_store w) (prefix ++ childID) "args" = Some JNull →
  run (ChainTemplate.handleCommand_result this command) w
  = (inl (TypeError "Cannot read properties of null (reading 'concat')"),
     {| w_store := w_store w; w_now := w_now w; w_events := w_events w;
        w_calls := (w_calls w ++
                    [ CallTime; CallGetRawTask (queue this) childID;
                      CallHget (prefix ++ childID) "args" ])%list |}).
Proof.
  intros Hnext Hres Htruthy prefix childID Hargs. subst prefix.
  unfold ChainTemplate.handleCommand_result.
  rewrite (proj2 (Nat.ltb_lt _ _) Hnext), Hres. simpl.
  fold childID. rewrite Htruthy. simpl.
  assert (JSON_parse (field_at (w_store w) (__prefix__ (queue this) ++ childID) "args")
          = JNull) as ->.
  { by destruct Hargs as [->| ->]. }
  destruct (read_raw_task _ _ _); simpl; unfold called; simpl;
    by rewrite <- !app_assoc.
Qed.

(** ** What every handler writes *)

Local Ltac write_ok_tac :=
  unfold write_ok, record_key, next_child_key, own_fields;
  first
    [ apply pool_commands_not_lock_key
    | apply finished_not_lock_key
    | (split; [reflexivity | first [ left; reflexivity | right; reflexivity ] ])
    | (split; [reflexivity | split; reflexivity ])
    | (left; split; [reflexivity | solve [simpl; auto 10] ])
    | (right; split; reflexivity) ].

Lemma writes_push (this : Task) (t : Transaction) (c : RedisCmd) :
  composite_writes this t → exec t ≠ [] → write_ok this c → no_incr c →
  composite_writes this (push_exec t c).
Proof.
  intros [Hw Hn] Hne Hc Hi. unfold composite_writes. simpl. split.
  - apply Forall_app. split; [done|]. by constructor.
  - destruct (exec t) as [|c0 cs]; [done|]. simpl in *.
    apply Forall_app. split; [done|]. by constructor.
Qed.

Local Ltac writes_base :=
  unfold composite_writes; simpl; split;
  [ repeat (apply List.Forall_cons; [write_ok_tac|]); apply List.Forall_nil
  | repeat (apply List.Forall_cons; [exact I|]); apply List.Forall_nil ].

Lemma activate_children_writes (this : Task) (prefix : string) (time : Z)
    (rawChildren : list (option RawTask)) (n i : nat) (t : Transaction) :
  composite_writes this t → exec t ≠ [] →
  composite_writes this (GroupTemplate.activate_children prefix time rawChildren i n t).
Proof.
  revert i t. induction n as [|n IH]; intros i t Ht Hne; simpl; [done|].
  destruct (mjoin (rawChildren !! i)).
  - apply IH.
    + apply writes_push; try done. apply pool_commands_not_lock_key.
    + simpl. by destruct (exec t).
  - by apply IH.
Qed.

Lemma handler_writes (this : Task) (command : Command) (st : string) (p : Prog unit) :
  handler this command st p → always (composite_writes this) p.
Proof.
  destruct 1.
  - unfold ChainTemplate.handleCommand_activate. simpl. intros time rawChild.
    split; [|done].
    destruct rawChild; [apply writes_push; [writes_base|done|write_ok_tac|exact I]|writes_base].
  - unfold ChainTemplate.handleCommand_result. simpl. intros time.
    destruct (_ <? _)%nat.
    + simpl. intros rawChild.
      set (t0 := match rawChild with Some _ => _ | None => _ end).
      assert (composite_writes this t0 ∧ exec t0 ≠ []) as [Ht0 Hne].
      { subst t0. destruct rawChild; (split; [|done]);
          [apply writes_push; [writes_base|done|write_ok_tac|exact I]|writes_base]. }
      clearbody t0.
      destruct (data_result command) as [e|res]; simpl; [done|].
      destruct (truthy res); simpl; [|by split].
      intros field. destruct (concat_one _ _) as [e|newArgs]; simpl; [done|].
      split; [|done]. apply writes_push; try done. write_ok_tac.
    + destruct (data_result command) as [e|res]; simpl; [done|].
      split; [|by intros []].
      destruct (has_parent this), res;
        repeat (apply writes_push; [|done|write_ok_tac|exact I]); writes_base.
  - unfold GroupTemplate.handleCommand_activate. simpl. intros time rawChildren.
    split; [|done]. apply activate_children_writes; [writes_base|done].
  - unfold GroupTemplate.handleCommand_result. simpl. intros time.
    split; [|done]. writes_base.
  - unfold GroupTemplate.handleCommand_group_check.
    destruct (_ <? _)%nat; simpl; [done|]. intros time rawChildren.
    destruct (existsb _ _); simpl; (split; [|by intros []]);
      destruct (has_parent this);
      repeat (apply writes_push; [|done|write_ok_tac|exact I]); writes_base.
Qed.

Lemma eval_atomic (t : Transaction) (s s' : Store) (r : EvalReply) :
  eval_transaction t s = (r, s') → r ≠ Committed → s' = s.
Proof.
  unfold eval_transaction. intros H Hr.
  destruct (run_validate (validate t) s) as [[] s1];
    try destruct (run_exec (exec t) s1) as [[] s2]; by simplify_eq.
Qed.

Lemma fields_after_frame (this : Task) (cmds : list RedisCmd) :
  Forall (write_ok this) cmds →
  ∀ F k f, ¬ may_write this k f → fields_after cmds F k f = F k f.
Proof.
  induction 1 as [|c cmds Hc _ IH]; intros F k f Hk; [done|].
  simpl. rewrite IH by done. unfold field_step.
  destruct c; try done; simpl in Hc.
  - rewrite decide_False; [done|]. intros [<- <-]. apply Hk.
    destruct Hc as [[-> Hin]|[-> ->]]; [left|right]; [|done].
    split; [done|]. by right.
  - rewrite decide_False; [done|]. intros [<- <-]. apply Hk.
    destruct Hc as (-> & -> & _). left. split; [done|]. by left.
Qed.

Lemma members_after_frame (this : Task) (cmds : list RedisCmd) :
  Forall (write_ok this) cmds →
  ∀ M k m, ¬ may_move this k m → members_after cmds M k m = M k m.
Proof.
  induction 1 as [|c cmds Hc _ IH]; intros M k m Hk; [done|].
  simpl. rewrite IH by done. unfold member_step.
  destruct c; try done; simpl in Hc.
  - rewrite decide_False; [done|]. intros [<- <-]. apply Hk.
    destruct Hc as [-> Hc]. by split.
  - rewrite decide_False; [done|]. intros [<- <-]. apply Hk.
    destruct Hc as [-> ->]. split; [done|]. by right.
Qed.

Lemma scores_after_adds (this : Task) (cmds : list RedisCmd) :
  Forall (write_ok this) cmds →
  ∀ Z0 k m, scores_after cmds Z0 k m = Z0 k m
            ∨ (¬ lock_key k ∧ is_Some (scores_after cmds Z0 k m)).
Proof.
  induction 1 as [|c cmds Hc _ IH]; intros Z0 k m; [by left|].
  simpl. destruct (IH (score_step c Z0) k m) as [E|?]; [|by right].
  rewrite E. unfold score_step.
  destruct c; try (by left); simpl in Hc; try done.
  case_decide as Hd; [|by left]. destruct Hd as [<- <-]. right. split; [done|eauto].
Qed.

Lemma run_invariant {A : Type} (P : Transaction → Prop) (R : Store → Store → Prop)
    (p : Prog A) :
  (∀ s, R s s) →
  (∀ s1 s2 s3, R s1 s2 → R s2 s3 → R s1 s3) →
  (∀ t s r s', P t → eval_transaction t s = (r, s') → R s s') →
  always P p → ∀ w, R (w_store w) (w_store (run p w).2).
Proof.
  intros Hrefl Htrans Hstep.
  induction p as [a|e|ev k IH|k IH|q id k IH|q ids k IH|key field k IH|t k IH];
    simpl; intros H w; try apply Hrefl.
  - apply (IH H (emitted w ev)).
  - apply (IH _ (H _) (called w CallTime)).
  - apply (IH _ (H _) (called w (CallGetRawTask q id))).
  - apply (IH _ (H _) (called w (CallGetRawTasks q ids))).
  - apply (IH _ (H _) (called w (CallHget key field))).
  - destruct H as [Ht Hk].
    destruct (eval_transaction t (w_store w)) as [r s1] eqn:E.
    pose proof (Hstep t _ _ _ Ht E) as H1.
    destruct r; simpl; try done.
    + eapply Htrans; [exact H1|].
      apply (IH true (Hk true) (stored (called w (CallEval t)) s1)).
    + eapply Htrans; [exact H1|].
      apply (IH false (Hk false) (stored (called w (CallEval t)) s1)).
Qed.

Lemma always_and {A : Type} (P Q : Transaction → Prop) (p : Prog A) :
  always P p → always Q p → always (fun t => P t ∧ Q t) p.
Proof.
  intros HP HQ. apply always_submits. intros t Ht.
  split; [by apply (proj1 (always_submits P p)) | by apply (proj1 (always_submits Q p))].
Qed.

Lemma handler_always (this : Task) (command : Command) (st : string) (p : Prog unit) :
  handler this command st p →
  always (fun t => composite_shape this command st t ∧ composite_writes this t) p.
Proof.
  intros Hp. apply always_and; [by apply handler_shape | by eapply handler_writes].
Qed.

(** ** What a handler leaves alone *)

Lemma eval_frame (this : Task) (command : Command) (st : string) (t : Transaction)
    (s s' : Store) (r : EvalReply) :
  composite_shape this command st t ∧ composite_writes this t →
  eval_transaction t s = (r, s') → frame this s s'.
Proof.
  intros [(Hv & _) [Hw _]] E.
  assert (r = Committed ∨ r ≠ Committed) as [->|Hr] by (destruct r; auto).
  - destruct (committed_views this command st t _ _ Hv E) as (Hf & _ & Hm). split.
    + intros k f Hk. rewrite Hf. by apply (fields_after_frame this).
    + intros k m Hk. rewrite Hm. by apply (members_after_frame this).
  - rewrite (eval_atomic _ _ _ _ E Hr). by split.
Qed.

(** X9. Whatever a handler of a composite submits, and whatever store it
    is evaluated on, the only fields that can differ afterwards are
    [state], [progress], [result], [error] and [children_finished] of the
    composite's own record and [args] of the child after the current one,
    and the only set entries that can differ are the composite's own id in
    the sets of waiting and idle tasks; the same holds from the start to
    the end of a run of the handler. *)
Theorem handler_writes_frame (this : Task) (command : Command) (st : string)
    (p : Prog unit) :
  handler this command st p →
  (∀ t s, submits p t → frame this s (eval_transaction t s).2)
  ∧ (∀ w, frame this (w_store w) (w_store (run p w).2)).
Proof.
  intros Hp. pose proof (handler_always _ _ _ _ Hp) as Hall. split.
  - intros t s Ht.
    apply (eval_frame this command st t s _ (eval_transaction t s).1).
    + by apply (proj1 (always_submits _ _) Hall).
    + by destruct (eval_transaction t s).
  - apply (run_invariant _ (frame this) p) with (4 := Hall).
    + by split.
    + intros s1 s2 s3 [Hf1 Hm1] [Hf2 Hm2]. split.
      * intros k f Hk. by rewrite Hf2, Hf1.
      * intros k m Hk. by rewrite Hm2, Hm1.
    + intros t s r s' Ht E. by apply (eval_frame this command st t s s' r).
Qed.

Lemma eval_commands_kept (this : Task) (command : Command) (st : string)
    (t : Transaction) (s s' : Store) (r : EvalReply) :
  composite_shape this command st t ∧ composite_writes this t →
  eval_transaction t s = (r, s') → commands_kept this command s s'.
Proof.
  intros [(Hv & _) [Hw _]] E.
  assert (r = Committed ∨ r ≠ Committed) as [->|Hr] by (destruct r; auto).
  - destruct (committed_views this command st t _ _ Hv E) as (_ & Hz & _).
    split; intros k m H1 H2; rewrite Hz; simpl;
      destruct (scores_after_adds this _ Hw
                  (score_step
                     (zrem (__prefix__ (queue this) ++ pool this ++ ":commands_locked")
                        (toJSON command)) (score_at s)) k m) as [->|[Hk Hsome]];
      try done; unfold score_step.
    + by rewrite decide_False by (intros [<- <-]; by apply H2).
    + by case_decide.
  - rewrite (eval_atomic _ _ _ _ E Hr). by split.
Qed.

(** X10. No handler of a composite removes anything from a sorted set but
    the command it was given, from the locked commands of its pool: every
    other entry of every sorted set (pending commands, the locked commands
    of other workers, finished tasks) is still there after any transaction
    it submits, on any store, and after a run of the handler; and no set of
    locked commands gets a new entry. *)
Theorem handler_keeps_commands (this : Task) (command : Command) (st : string)
    (p : Prog unit) :
  handler this command st p →
  (∀ t s, submits p t → commands_kept this command s (eval_transaction t s).2)
  ∧ (∀ w, commands_kept this command (w_store w) (w_store (run p w).2)).
Proof.
  intros Hp. pose proof (handler_always _ _ _ _ Hp) as Hall. split.
  - intros t s Ht.
    apply (eval_commands_kept this command st t s _ (eval_transaction t s).1).
    + by apply (proj1 (always_submits _ _) Hall).
    + by destruct (eval_transaction t s).
  - apply (run_invariant _ (commands_kept this command) p) with (4 := Hall).
    + by split.
    + intros s1 s2 s3 [Ha1 Hb1] [Ha2 Hb2]. split.
      * intros k m Hs Hk. apply Ha2; [by apply Ha1|done].
      * intros k m Hk Hs. apply Hb2; [done|by apply Hb1].
    + intros t s r s' Ht E. by apply (eval_commands_kept this command st t s s' r).
Qed.

(** ** The counter of finished children *)

Lemma tail_keeps_counter (this : Task) (cmds : list RedisCmd) :
  Forall (write_ok this) cmds → Forall no_incr cmds →
  ∀ F k, fields_after cmds F k "children_finished" = F k "children_finished".
Proof.
  induction 1 as [|c cmds Hc _ IH]; intros Hn F k; [done|].
  apply Forall_cons in Hn as [Hn Hns]. simpl. rewrite IH by done.
  unfold field_step. destruct c; try done; simpl in Hc.
  rewrite decide_False; [done|]. intros [_ ->].
  destruct Hc as [[_ Hin]|[_ ?]]; [|done].
  simpl in Hin. by repeat destruct Hin as [?|Hin].
Qed.

Lemma counter_after (this : Task) (t : Transaction) (F : string → string → jsval)
    (k : string) (n : Z) :
  composite_writes this t →
  F k "children_finished" = Some (JNum n) →
  fields_after (exec t) F k "children_finished"
  = Some (JNum (n + (if counts_on k t then 1 else 0))).
Proof.
  intros [Hw Hn] HF. unfold counts_on.
  destruct (exec t) as [|c cmds]; simpl in *.
  { by rewrite Z.add_0_r. }
  apply Forall_cons in Hw as [Hc Hw].
  rewrite (tail_keeps_counter this cmds Hw Hn). unfold field_step.
  destruct c; simpl in Hc; rewrite ?Z.add_0_r; try done.
  - rewrite decide_False; [done|]. intros [_ ->].
    destruct Hc as [[_ Hin]|[_ ?]]; [|done].
    simpl in Hin. by repeat destruct Hin as [?|Hin].
  - destruct Hc as (-> & -> & ->). case_bool_decide as Hk.
    + rewrite decide_True by done. by rewrite HF.
    + rewrite decide_False by (by intros [? _]). by rewrite Z.add_0_r.
Qed.

Lemma composite_transaction_writes (t : Transaction) :
  composite_transaction t →
  ∃ this command st, composite_shape this command st t ∧ composite_writes this t.
Proof.
  intros (this & command & st & p & Hp & Hs). exists this, command, st.
  by apply (proj1 (always_submits _ _) (handler_always _ _ _ _ Hp)).
Qed.

Lemma counter_along (k : string) (ts : list Transaction) :
  Forall composite_transaction ts →
  ∀ s n, field_at s k "children_finished" = Some (JNum n) →
    field_at (run_transactions ts s).2 k "children_finished"
    = Some (JNum (n + Z.of_nat (increments k (run_transactions ts s).1))).
Proof.
  induction 1 as [|t ts Ht _ IH]; intros s n Hn; simpl.
  { unfold increments. simpl. by rewrite Z.add_0_r. }
  destruct (composite_transaction_writes t Ht) as (this & command & st & [Hv _] & Hw).
  destruct (eval_transaction t s) as [r s1] eqn:E.
  assert (field_at s1 k "children_finished"
          = Some (JNum (n + (if is_committed r && counts_on k t then 1 else 0))))
    as Hn1.
  { assert (r = Committed ∨ r ≠ Committed) as [->|Hr] by (destruct r; auto).
    - destruct (committed_views this command st t _ _ Hv E) as (Hf & _).
      rewrite Hf. simpl. by apply (counter_after this).
    - rewrite (eval_atomic _ _ _ _ E Hr), Hn. destruct r; try done;
        by rewrite Z.add_0_r. }
  specialize (IH s1 _ Hn1).
  destruct (run_transactions ts s1) as [out s2]. simpl in *. rewrite IH.
  unfold increments. simpl.
  destruct (is_committed r && counts_on k t); simpl; do 2 f_equal; lia.
Qed.

(** X11. The persisted counter [children_finished] of a record only counts
    up, by one for each committed transaction that starts with its
    increment (the transactions of the two result handlers): along any run
    of transactions submitted by handlers of composites, and along any
    interleaving of workers that run such handlers, a counter that held [n]
    ends at [n] plus the number of those commits; no other transaction and
    no rejected one moves it. *)
Theorem counter_counts_commits (k : string) (n : Z) :
  (∀ ts s,
     Forall composite_transaction ts →
     field_at s k "children_finished" = Some (JNum n) →
     field_at (run_transactions ts s).2 k "children_finished"
     = Some (JNum (n + Z.of_nat (increments k (run_transactions ts s).1))))
  ∧ (∀ s ws tr s' ws',
       Forall composite_worker ws →
       interleaving s ws tr s' ws' →
       field_at s k "children_finished" = Some (JNum n) →
       field_at s' k "children_finished"
       = Some (JNum (n + Z.of_nat (increments k tr)))).
Proof.
  split.
  - intros ts s Hts Hn. by apply counter_along.
  - intros s ws tr s' ws' Hws Hrun Hn.
    destruct (interleaving_run composite_transaction _ _ _ _ _ Hrun
                (composite_workers_submit ws Hws)) as [Hts E].
    pose proof (counter_along k (map fst tr) Hts s n Hn) as H.
    by rewrite E in H.
Qed.

(** ** Commands that are no longer locked *)

Lemma run_unlocked (this : Task) (command : Command) (st : string) (p : Prog unit)
    (w : World) :
  always (composite_shape this command st) p →
  in_zset (w_store w) (__prefix__ (queue this) ++ pool this ++ ":commands_locked")
    (toJSON command) = false →
  w_store (run p w).2 = w_store w.
Proof.
  intros Hall.
  apply (run_invariant (composite_shape this command st)
           (fun s s' =>
              in_zset s (__prefix__ (queue this) ++ pool this ++ ":commands_locked")
                (toJSON command) = false → s' = s) p);
    try done.
  - intros s1 s2 s3 H1 H2 Hc. rewrite <- (H1 Hc). apply H2. by rewrite (H1 Hc).
  - intros t s r s' (Hv & _) E Hc.
    rewrite (eval_unlocked this command st t s Hv Hc) in E. by simplify_eq.
Qed.

Lemma run_unlocks (this : Task) (command : Command) (st : string) (p : Prog unit)
    (w : World) :
  always (composite_shape this command st) p →
  w_store (run p w).2 = w_store w
  ∨ score_at (w_store (run p w).2)
      (__prefix__ (queue this) ++ pool this ++ ":commands_locked") (toJSON command)
    = None.
Proof.
  intros Hall.
  apply (run_invariant (composite_shape this command st)
           (fun s s' =>
              s' = s
              ∨ score_at s' (__prefix__ (queue this) ++ pool this ++ ":commands_locked")
                  (toJSON command) = None) p); try done.
  - by left.
  - intros s1 s2 s3 [->|H1] [->|H2]; auto.
  - intros t s r s' Hshape E.
    destruct (shape_eval this command st t s Hshape r s' E) as (Hc & Hsame & _).
    destruct r; [right; by apply Hc | left; by apply Hsame | left; by apply Hsame].
Qed.

Lemma unlocked_along (K m : string) (ts : list Transaction) :
  Forall composite_transaction ts →
  ∀ s, lock_key K → score_at s K m = None →
    score_at (run_transactions ts s).2 K m = None.
Proof.
  induction 1 as [|t ts Ht _ IH]; intros s HK Hs; [done|]. simpl.
  destruct (composite_transaction_shape t Ht) as (this & command & st & Hshape).
  destruct (eval_transaction t s) as [r s1] eqn:E.
  destruct (shape_eval this command st t s Hshape r s1 E) as (_ & _ & Hl & _).
  specialize (IH s1 HK (Hl K m HK Hs)).
  by destruct (run_transactions ts s1).
Qed.

(** X12. A handler that runs on a store in which its command is not among
    the locked commands of the task's pool (the worker lost the race: the
    command was handled by another) leaves the store exactly as it was,
    whatever the task's state and whatever the handler read: the removal
    that its transaction validates first removes nothing, and nothing of
    the transaction is carried out. *)
Theorem unlocked_command_changes_nothing (this : Task) (command : Command)
    (st : string) (p : Prog unit) (w : World) :
  handler this command st p →
  in_zset (w_store w) (__prefix__ (queue this) ++ pool this ++ ":commands_locked")
    (toJSON command) = false →
  w_store (run p w).2 = w_store w.
Proof.
  intros Hp Hc. apply (run_unlocked this command st); [|done].
  by apply handler_shape.
Qed.

(** X13. A command takes effect at most once: once a run of a handler has
    changed the store for a command, a later run of any handler for the
    same command, by any worker of the same pool and with any snapshot of
    the task, changes nothing, whatever transactions of composite handlers
    were evaluated in between. *)
Theorem redelivery_changes_nothing (this this' : Task) (command : Command)
    (st st' : string) (p p' : Prog unit) (w w' : World) (ts : list Transaction) :
  handler this command st p →
  handler this' command st' p' →
  __prefix__ (queue this') = __prefix__ (queue this) →
  pool this' = pool this →
  Forall composite_transaction ts →
  w_store (run p w).2 ≠ w_store w →
  w_store w' = (run_transactions ts (w_store (run p w).2)).2 →
  w_store (run p' w').2 = w_store w'.
Proof.
  intros Hp Hp' Hq Hpool Hts Hchanged Hw'.
  apply (run_unlocked this' command st'); [by apply handler_shape|].
  rewrite Hq, Hpool, Hw'.
  destruct (run_unlocks this command st p w (handler_shape _ _ _ _ Hp)) as [?|Hgone];
    [done|].
  apply (unlocked_along _ _ ts Hts) in Hgone; [|apply pool_lock_key].
  apply not_true_is_false. intros Hin. apply in_zset_score in Hin.
  rewrite Hgone in Hin. by destruct Hin.
Qed.

(** ** How a handler ends *)

Lemma only_adds_finish (k : string) (cmds : list RedisCmd) :
  Forall only_adds cmds → existsb (is_finish_write k) cmds = false.
Proof. induction 1 as [|c cmds Hc _ IH]; [done|]. by destruct c. Qed.

Lemma writes_finished_push (k : string) (t : Transaction) (c : RedisCmd) :
  writes_finished k (push_exec t c) = writes_finished k t || is_finish_write k c.
Proof.
  unfold writes_finished. simpl. rewrite existsb_app. simpl. by rewrite orb_false_r.
Qed.

Lemma handler_ends_on_finish (this : Task) (command : Command) (st : string)
    (p : Prog unit) :
  handler this command st p → ends_on_finish this p.
Proof.
  destruct 1.
  - unfold ChainTemplate.handleCommand_activate. simpl. intros time rawChild.
    split; [done|]. by destruct rawChild.
  - unfold ChainTemplate.handleCommand_result. simpl. intros time.
    destruct (_ <? _)%nat.
    + simpl. intros rawChild.
      destruct (data_result command) as [e|res]; simpl; [done|].
      destruct (truthy res); simpl.
      * intros field. destruct (concat_one _ _) as [e|newArgs]; simpl; [done|].
        split; [done|]. by destruct rawChild.
      * split; [done|]. by destruct rawChild.
    + destruct (data_result command) as [e|res]; simpl; [done|].
      split; [done|]. unfold record_key.
      destruct (has_parent this), res; rewrite ?writes_finished_push;
        unfold writes_finished; simpl;
        by rewrite bool_decide_eq_true_2.
  - unfold GroupTemplate.handleCommand_activate. simpl. intros time rawChildren.
    split; [done|]. unfold writes_finished.
    rewrite (proj2 (activate_children_exec _ _ _ _ _ _)), existsb_app.
    rewrite (only_adds_finish _ (map _ _)) by apply (proj1 (activate_of_adds _ _ _)).
    done.
  - unfold GroupTemplate.handleCommand_result. simpl. intros time. by split.
  - unfold GroupTemplate.handleCommand_group_check.
    destruct (_ <? _)%nat; simpl; [done|]. intros time rawChildren.
    unfold record_key.
    destruct (existsb _ _); simpl; [split; [done|]|]; (split; [done|]);
      destruct (has_parent this); rewrite ?writes_finished_push;
        unfold writes_finished; simpl;
        by rewrite bool_decide_eq_true_2.
Qed.

Lemma is_finish_write_true (k : string) (c : RedisCmd) :
  is_finish_write k c = true ↔ c = hset k "state" (JStr "finished").
Proof.
  split; [|intros ->; simpl; by rewrite bool_decide_eq_true_2].
  destruct c; simpl; try done. intros H.
  apply andb_true_iff in H as [H Hk]. apply andb_true_iff in H as [Hf Hv].
  apply bool_decide_eq_true in Hk as ->. apply String.eqb_eq in Hf as ->.
  destruct value; simpl in Hv; try done. by apply String.eqb_eq in Hv as ->.
Qed.

Lemma finish_write_step (this : Task) (st : string) (cmds : list RedisCmd) :
  Forall (cmd_ok this st) cmds →
  (existsb (is_finish_write (record_key this)) cmds = true →
   st = "idle" ∧ existsb (is_state_write (record_key this)) cmds = true)
  ∧ (st = "idle" → existsb (is_state_write (record_key this)) cmds = true →
     existsb (is_finish_write (record_key this)) cmds = true).
Proof.
  induction 1 as [|c cmds Hc _ [IH1 IH2]]; [done|]. simpl. split.
  - intros H. apply orb_true_iff in H as [H|H].
    + apply is_finish_write_true in H as ->. simpl in *.
      rewrite bool_decide_eq_true_2 by done.
      destruct (Hc eq_refl) as [_ [[_ ?]|[-> _]]]; done.
    + destruct (IH1 H) as [-> ->]. by rewrite orb_true_r.
  - intros -> H. apply orb_true_iff in H as [H|H].
    + destruct c; simpl in *; try done.
      apply bool_decide_eq_true in H as [-> ->].
      destruct (Hc eq_refl) as [_ [[? _]|[_ ->]]]; [done|]. simpl.
      by rewrite bool_decide_eq_true_2.
    + rewrite (IH2 eq_refl H). by rewrite orb_true_r.
Qed.

Lemma run_ends (this : Task) (command : Command) (st : string) (p : Prog unit) :
  ends_on_finish this p →
  always (composite_shape this command st) p →
  ∀ w, ∃ pre,
    Forall (fun ev => is_end ev = false) pre
    ∧ ((w_events (run p w).2 = (w_events w ++ pre)%list
        ∧ (state_at (w_store (run p w).2) (record_key this) = finished →
           state_at (w_store w) (record_key this) = finished))
       ∨ (w_events (run p w).2 = (w_events w ++ pre ++ end_events this)%list
          ∧ state_at (w_store w) (record_key this) = idle
          ∧ state_at (w_store (run p w).2) (record_key this) = finished)).
Proof.
  induction p as [a|e|ev k IH|k IH|q id k IH|q ids k IH|key field k IH|t k _];
    simpl; intros He Hall w.
  - exists []. split; [done|]. left. by rewrite app_nil_r.
  - exists []. split; [done|]. left. by rewrite app_nil_r.
  - destruct He as [Hev He].
    destruct (IH He Hall (emitted w ev)) as (pre & Hpre & H).
    exists (ev :: pre). split; [by constructor|].
    simpl in H. rewrite <- !app_assoc in H. exact H.
  - apply (IH _ (He _) (Hall _) (called w CallTime)).
  - apply (IH _ (He _) (Hall _) (called w (CallGetRawTask q id))).
  - apply (IH _ (He _) (Hall _) (called w (CallGetRawTasks q ids))).
  - apply (IH _ (He _) (Hall _) (called w (CallHget key field))).
  - destruct He as [Hfalse Htrue]. destruct Hall as [Hshape _].
    exists []. split; [done|]. rewrite app_nil_r. simpl.
    destruct (eval_transaction t (w_store w)) as [r s1] eqn:E.
    destruct (shape_eval this command st t _ Hshape r s1 E) as (Hc & Hsame & _ & Hk).
    specialize (Hk (record_key this)).
    destruct (finish_write_step this st (exec t) (proj1 (proj2 Hshape))) as [Hfin Hst].
    destruct r; simpl.
    + rewrite Htrue. destruct (Hc eq_refl) as (_ & Hbefore & _).
      unfold writes_state in Hk. simpl in Hk.
      destruct (writes_finished (record_key this) t) eqn:Hw; simpl.
      * right. split; [by rewrite <- !app_assoc|].
        destruct (Hfin Hw) as [-> Hws]. rewrite Hws in Hk.
        split; [done|].
        destruct Hk as (_ & v & -> & [[? _]|[_ ->]]); done.
      * left. split; [done|]. intros Hafter.
        destruct (existsb (is_state_write (record_key this)) (exec t)) eqn:Hws.
        -- destruct Hk as (_ & v & Hv & [[-> ->]|[-> ->]]).
           ++ rewrite Hv in Hafter. done.
           ++ unfold writes_finished in Hw. by rewrite (Hst eq_refl eq_refl) in Hw.
        -- by rewrite <- Hk.
    + rewrite Hfalse. simpl. left. split; [done|]. by rewrite (Hsame ltac:(done)).
    + left. split; [done|]. by rewrite (Hsame ltac:(done)).
Qed.

(** X14. The events [task:end] and [task:end:<id>] are emitted exactly by
    the run that moves the task to [finished]: in a run of any handler the
    events emitted are some that are no end events (the group's local
    [error]) followed either by nothing, and then the run did not move the
    task's state to [finished], or by the two end events of the task, and
    then the run found the task [idle] and left it [finished]. In
    particular a run whose transaction is rejected emits no end event. *)
Theorem end_events_iff_finished (this : Task) (command : Command) (st : string)
    (p : Prog unit) (w : World) :
  handler this command st p →
  ∃ pre,
    Forall (fun ev => is_end ev = false) pre
    ∧ ((w_events (run p w).2 = (w_events w ++ pre)%list
        ∧ (state_at (w_store (run p w).2) (record_key this) = finished →
           state_at (w_store w) (record_key this) = finished))
       ∨ (w_events (run p w).2 = (w_events w ++ pre ++ end_events this)%list
          ∧ state_at (w_store w) (record_key this) = idle
          ∧ state_at (w_store (run p w).2) (record_key this) = finished)).
Proof.
  intros Hp. apply (run_ends this command st).
  - by eapply handler_ends_on_finish.
  - by apply handler_shape.
Qed.

Lemma run_calls (this : Task) (p : Prog unit) :
  ends_on_finish this p →
  ∀ w, ∃ reads,
    Forall (fun c => is_eval c = false) reads
    ∧ (w_calls (run p w).2 = (w_calls w ++ reads)%list
       ∨ ∃ t, submits p t
              ∧ w_calls (run p w).2 = (w_calls w ++ reads ++ [ CallEval t ])%list).
Proof.
  induction p as [a|e|ev k IH|k IH|q id k IH|q ids k IH|key field k IH|t k _];
    simpl; intros He w.
  - exists []. split; [done|]. left. by rewrite app_nil_r.
  - exists []. split; [done|]. left. by rewrite app_nil_r.
  - destruct He as [_ He]. destruct (IH He (emitted w ev)) as (reads & Hr & H).
    exists reads. split; [done|].
    destruct H as [H|(t & Ht & H)]; [by left|right].
    exists t. split; [by apply submits_after_emit|done].
  - destruct (IH (w_now w) (He _) (called w CallTime)) as (reads & Hr & H).
    exists (CallTime :: reads). split; [by constructor|].
    destruct H as [H|(t & Ht & H)]; [left|right; exists t; split];
      [|by eapply submits_after_time|]; rewrite H; simpl; by rewrite <- !app_assoc.
  - destruct (IH (read_raw_task (w_store w) q id) (He _)
                (called w (CallGetRawTask q id))) as (reads & Hr & H).
    exists (CallGetRawTask q id :: reads). split; [by constructor|].
    destruct H as [H|(t & Ht & H)]; [left|right; exists t; split];
      [|by eapply submits_after_task|]; rewrite H; simpl; by rewrite <- !app_assoc.
  - destruct (IH (read_raw_tasks (w_store w) q ids) (He _)
                (called w (CallGetRawTasks q ids))) as (reads & Hr & H).
    exists (CallGetRawTasks q ids :: reads). split; [by constructor|].
    destruct H as [H|(t & Ht & H)]; [left|right; exists t; split];
      [|by eapply submits_after_tasks|]; rewrite H; simpl; by rewrite <- !app_assoc.
  - destruct (IH (field_at (w_store w) key field) (He _)
                (called w (CallHget key field))) as (reads & Hr & H).
    exists (CallHget key field :: reads). split; [by constructor|].
    destruct H as [H|(t & Ht & H)]; [left|right; exists t; split];
      [|by eapply submits_after_hget|]; rewrite H; simpl; by rewrite <- !app_assoc.
  - destruct He as [Hfalse Htrue]. exists []. split; [done|]. right.
    exists t. split; [constructor|]. simpl.
    destruct (eval_transaction t (w_store w)) as [[] s1]; simpl;
      rewrite ?Htrue, ?Hfalse; try done.
    by destruct (writes_finished _ _).
Qed.

(** X15. A run of a handler evaluates at most one transaction, and the
    evaluation is its last store call: the calls of the run are reads (the
    clock, task records, one field) followed by nothing or by the
    evaluation of a transaction the handler submits; what follows it is the
    emission of events only. *)
Theorem one_evaluation_per_run (this : Task) (command : Command) (st : string)
    (p : Prog unit) (w : World) :
  handler this command st p →
  ∃ reads,
    Forall (fun c => is_eval c = false) reads
    ∧ (w_calls (run p w).2 = (w_calls w ++ reads)%list
       ∨ ∃ t, submits p t
              ∧ w_calls (run p w).2 = (w_calls w ++ reads ++ [ CallEval t ])%list).
Proof.
  intros Hp. apply (run_calls this). by eapply handler_ends_on_finish.
Qed.

(** ** Preparation *)

Lemma round_double_safe (z : Z) : safe_integer z → round_double z = z.
Proof.
  intros [Hlo Hhi]. unfold round_double.
  assert ((Z.abs z <=? two53) = true) as -> by (apply Z.leb_le; lia). done.
Qed.

(** As long as the running totals are safe integers no addition rounds. *)
Lemma sum_totals_exact (ts : list Task) :
  Forall safe_integer (running_totals ts) →
  sum_totals ts = foldr Z.add 0 (map total ts).
Proof.
  unfold sum_totals, running_totals.
  assert (∀ acc, Forall safe_integer (totals_from acc ts) →
                 fold_left (fun acc t => js_add acc (total t)) ts acc
                 = acc + foldr Z.add 0 (map total ts)) as H.
  { induction ts as [|t ts IH]; intros acc Hsafe; simpl; [lia|].
    simpl in Hsafe. apply Forall_cons in Hsafe as [Ht Hsafe].
    replace (js_add acc (total t)) with (acc + total t)
      by (unfold js_add; by rewrite round_double_safe).
    rewrite (IH _ Hsafe). lia. }
  intros Hsafe. by rewrite (H 0 Hsafe).
Qed.

(** Past [2^53] the sum is the rounded one. *)
Example sum_totals_rounds :
  sum_totals [ leaf_task "a" two53; leaf_task "b" 1 ] = two53
  ∧ sum_totals [ leaf_task "a" two53; leaf_task "b" 3 ] = two53 + 4.
Proof. vm_compute. by split. Qed.

Lemma Promise_all_prepared (cs : list ChildTemplate) (ts : list Task) :
  Promise_all cs = inr ts ↔ map prepared cs = map inr ts.
Proof.
  revert ts. induction cs as [|c cs IH]; intros ts; simpl.
  { split; [by intros [= <-]|]. by destruct ts. }
  destruct (prepared c) as [e|t].
  { split; [done|]. by destruct ts. }
  destruct (Promise_all cs) as [e|ts'].
  - split; [done|]. destruct ts as [|t0 ts]; [done|]. simpl. intros [= -> H].
    by apply IH in H.
  - split.
    + intros [= <-]. simpl. f_equal. by apply IH.
    + destruct ts as [|t0 ts]; [done|]. simpl. intros [= -> H].
      apply IH in H. by simplify_eq.
Qed.

Lemma Promise_all_settles (cs : list ChildTemplate) :
  (∃ ts, Promise_all cs = inr ts) ↔ Forall settles cs.
Proof.
  induction cs as [|c cs IH]; simpl.
  { split; [done|]. by eexists. }
  split.
  - intros [ts H]. destruct (prepared c) as [e|t] eqn:Hc; [done|].
    destruct (Promise_all cs) as [e|ts']; [done|].
    constructor; [by exists t|]. apply IH. by eexists.
  - intros H. apply Forall_cons in H as [[t ->] H]. apply IH in H as [ts ->].
    by eexists.
Qed.

(** X16. When [init()] returns and every child prepares, preparation of a
    chain or a group settles with the task linked to its children: its id is
    the generated one, [children] lists the children's ids in the order of
    the task list (the array that [init()] returned if it returned one, else
    the constructor's), [children_finished] is 0; every child gets the task
    as its parent; the result of a group starts as the empty array and that
    of a chain is left alone; and, when the sums [this.total] runs through
    are safe integers (so that no [+=] rounds), [total] is the sum of the
    children's totals. The store is not called. *)
Theorem prepare_links_and_sums (this : Template) (taskID : string)
    (init : option (list ChildTemplate)) (ts : list Task) (w : World) :
  children_to_init this init ≠ [] →
  map prepared (children_to_init this init) = map inr ts →
  Forall safe_integer (running_totals ts) →
  let linked (me : Task) (kids : list Task) :=
    task_id me = taskID
    ∧ children me = map task_id ts
    ∧ length (children me) = length (children_to_init this init)
    ∧ children_finished me = 0%nat
    ∧ total me = foldr Z.add 0 (map total ts)
    ∧ map task_id kids = children me
    ∧ Forall (fun kid => parent kid = Some taskID) kids in
  (∃ me kids,
     run (ChainTemplate.prepare this taskID (inr init)) w = (inr (me, kids), w)
     ∧ linked me kids ∧ result me = result (self this))
  ∧ (∃ me kids,
       run (GroupTemplate.prepare this taskID (inr init)) w = (inr (me, kids), w)
       ∧ linked me kids ∧ result me = Some (JArr [])).
Proof.
  intros Hne Hts Hsafe linked.
  assert ((length (children_to_init this init) =? 0)%nat = false) as Hlen.
  { apply Nat.eqb_neq. by destruct (children_to_init this init). }
  assert (length ts = length (children_to_init this init)) as Hsame.
  { apply (f_equal length) in Hts. by rewrite !length_map in Hts. }
  apply Promise_all_prepared in Hts.
  unfold children_to_init in *.
  split; unfold ChainTemplate.prepare, GroupTemplate.prepare; simpl;
    rewrite Hlen, Hts; simpl; eexists _, _; (split; [reflexivity|]);
    (split; [|done]); unfold linked; simpl;
    rewrite (sum_totals_exact _ Hsafe), !length_map;
    repeat split; try done.
  all: try (by rewrite map_map).
  all: by apply Forall_fmap, Forall_forall.
Qed.

(** X17. Preparation never calls the store and emits nothing, whatever its
    outcome, and it settles with a task exactly when [init()] returns, at
    least one child is given and every child prepares; a chain and a group
    are alike in this. A throw of [init()] is the rejection of [prepare],
    also when no children are given. *)
Theorem prepare_succeeds_iff (this : Template) (taskID : string)
    (init : JsError + option (list ChildTemplate)) (w : World) :
  let chain := run (ChainTemplate.prepare this taskID init) w in
  let group := run (GroupTemplate.prepare this taskID init) w in
  let ready :=
    ∃ o, init = inr o ∧ children_to_init this o ≠ []
         ∧ Forall settles (children_to_init this o) in
  chain.2 = w ∧ group.2 = w
  ∧ ((∃ out, chain.1 = inr out) ↔ ready)
  ∧ ((∃ out, group.1 = inr out) ↔ ready)
  ∧ (∀ e, init = inl e → chain.1 = inl e ∧ group.1 = inl e).
Proof.
  intros chain group ready. subst chain group ready.
  unfold ChainTemplate.prepare, GroupTemplate.prepare.
  destruct init as [e|o]; simpl.
  { repeat split; try congruence; try (by intros [? ?]); by intros (? & ? & _). }
  fold (children_to_init this o).
  pose proof (Promise_all_settles (children_to_init this o)) as Hall.
  assert (∀ P : Prop,
            (∃ o0, @inr JsError _ o = inr o0 ∧ children_to_init this o0 ≠ []
                   ∧ Forall settles (children_to_init this o0)) → 
            (children_to_init this o ≠ [] →
             (∃ ts, Promise_all (children_to_init this o) = inr ts) → P) → P) as Hready.
  { intros P (o0 & [= <-] & Hne & Hs) HP. apply HP; [done|]. by apply Hall. }
  destruct (children_to_init this o) as [|c cs] eqn:Hcs; simpl.
  { repeat split; try congruence; try (by intros [? ?]).
    all: intros H; by apply (Hready _ H). }
  simpl in Hall, Hready. destruct (prepared c) as [e|t]; simpl.
  { repeat split; try congruence; try (by intros [? ?]).
    all: intros H; apply (Hready _ H); by intros _ [? ?]. }
  destruct (Promise_all cs) as [e|ts]; simpl.
  { repeat split; try congruence; try (by intros [? ?]).
    all: intros H; apply (Hready _ H); by intros _ [? ?]. }
  repeat split; try congruence; try (by eexists).
  all: intros _; exists o; split; [done|]; rewrite Hcs; split; [done|];
    apply Hall; by eexists.
Qed.

(** ** Errors *)


Lemma eval_no_incr (this : Task) (command : Command) (st : string) (t : Transaction)
    (s : Store) :
  validate t = [ lock_check this command; state_check this st ] →
  Forall no_incr (exec t) →
  (eval_transaction t s).1 ≠ ScriptError.
Proof.
  intros Hv Hx. unfold eval_transaction. rewrite Hv.
  destruct (run_validate_composite this command st s) as (s1 & E & _).
  rewrite E. destruct (in_zset _ _ _); [|done].
  destruct (reply_eqb _ _); [|done].
  destruct (run_exec_no_incr (exec t) s1 Hx) as [s2 ->]. done.
Qed.

(** X19. The handlers that do not count never reject: whatever the store
    holds, a run of the chain's or the group's activate handler, or of the
    group's [group_check] handler, returns normally: their transactions
    hold no increment, the one store command that can reply with an
    error. *)
Theorem activate_and_check_never_throw (this : Task) (command : Command) (w : World) :
  (run (ChainTemplate.handleCommand_activate this command) w).1 = inr tt
  ∧ (run (GroupTemplate.handleCommand_activate this command) w).1 = inr tt
  ∧ (run (GroupTemplate.handleCommand_group_check this command) w).1 = inr tt.
Proof.
  split; [|split].
  - unfold ChainTemplate.handleCommand_activate. simpl.
    match goal with |- context [eval_transaction ?t0 _] => set (t := t0) end.
    pose proof (eval_no_incr this command "waiting" t (w_store w)) as H.
    destruct (eval_transaction t (w_store w)) as [[] s1]; try done.
    exfalso. apply H; try done; subst t;
      destruct (read_raw_task _ _ _); simpl; try done; repeat constructor.
  - unfold GroupTemplate.handleCommand_activate. simpl.
    match goal with |- context [eval_transaction ?t0 _] => set (t := t0) end.
    pose proof (eval_no_incr this command "waiting" t (w_store w)) as H.
    destruct (eval_transaction t (w_store w)) as [[] s1]; try done.
    exfalso. subst t.
    match type of H with
    | context [GroupTemplate.activate_children ?p ?tm ?raw ?i ?n ?t0] =>
        destruct (activate_children_exec p tm raw n i t0) as [Hv Hx]
    end.
    apply H; [by rewrite Hv| |done]. rewrite Hx. apply Forall_app. split.
    + simpl. repeat constructor.
    + eapply Forall_impl; [apply (proj1 (activate_of_adds _ _ _))|]. by intros [].
  - unfold GroupTemplate.handleCommand_group_check.
    destruct (_ <? _)%nat; simpl; [done|].
    destruct (existsb _ _); simpl.
    + match goal with |- context [eval_transaction ?t0 _] => set (t := t0) end.
      pose proof (eval_no_incr this command "idle" t (w_store w)) as H.
      destruct (eval_transaction t (w_store w)) as [[] s1]; try done.
      exfalso. apply H; try done; subst t;
        destruct (has_parent this); simpl; try done; repeat constructor.
    + match goal with |- context [eval_transaction ?t0 _] => set (t := t0) end.
      pose proof (eval_no_incr this command "idle" t (w_store w)) as H.
      destruct (eval_transaction t (w_store w)) as [[] s1]; try done.
      exfalso. apply H; try done; subst t;
        destruct (has_parent this); simpl; try done; repeat constructor.
Qed.

(** ** Worked examples of the further properties *)

Lemma activate_children_appends_witness :
  exec (GroupTemplate.activate_children "idoit:" 100
          (read_raw_tasks store_group_waiting q0 [ "x"; "y" ]) 0 2 tx_group_waiting)
  = [ srem "idoit:waiting" "g"; sadd "idoit:idle" "g";
      hset "idoit:g" "state" (JStr "idle");
      zadd "idoit:default:commands" 100 (toJSON (command_to "x" "activate" None)) ]
  ∧ (length (read_raw_tasks store_group_waiting q0 [ "x"; "y" ]) ≤ 2)%nat
  ∧ exec (GroupTemplate.activate_children "idoit:" 100
            (read_raw_tasks store_group_waiting q0 [ "x"; "y" ]) 2 2 tx_group_waiting)
    = exec tx_group_waiting.
Proof.
  assert ((length (read_raw_tasks store_group_waiting q0 [ "x"; "y" ]) ≤ 2)%nat) as H
    by (simpl; lia).
  split; [|split; [exact H|]].
  - destruct (activate_children_appends "idoit:" 100
                (read_raw_tasks store_group_waiting q0 [ "x"; "y" ]) 2 0 tx_group_waiting)
      as (_ & Hx & _).
    rewrite Hx. vm_compute. reflexivity.
  - destruct (activate_children_appends "idoit:" 100
                (read_raw_tasks store_group_waiting q0 [ "x"; "y" ]) 2 2 tx_group_waiting)
      as (_ & Hx & _ & Hnone).
    rewrite Hx, (Hnone H). reflexivity.
Defined.

Lemma group_activate_fans_out_witness :
  (in_zset store_group_waiting "idoit:default:commands_locked" (toJSON activate_g) = true
   ∧ state_at store_group_waiting "idoit:g" = waiting)
  ∧ ∃ t w',
      run (GroupTemplate.handleCommand_activate group_xy activate_g)
        (world_at store_group_waiting) = (inr tt, w')
      ∧ exec t = [ srem "idoit:waiting" "g"; sadd "idoit:idle" "g";
                   hset "idoit:g" "state" (JStr "idle");
                   zadd "idoit:default:commands" 100
                     (toJSON (command_to "x" "activate" None)) ]
      ∧ state_at (w_store w') "idoit:g" = idle
      ∧ member_at (w_store w') "idoit:idle" "g" = true.
Proof.
  assert (in_zset store_group_waiting "idoit:default:commands_locked"
            (toJSON activate_g) = true) as H1 by (vm_compute; reflexivity).
  assert (state_at store_group_waiting "idoit:g" = waiting) as H2
    by (vm_compute; reflexivity).
  split; [done|].
  destruct (group_activate_fans_out group_xy activate_g (world_at store_group_waiting)
              H1 H2) as (t & w' & Hrun & _ & _ & Hx & Hst & _ & Hm & _).
  exists t, w'. split; [exact Hrun|]. split; [exact Hx|]. split; [exact Hst|exact Hm].
Defined.

Lemma group_result_counts_and_checks_witness :
  (in_zset store_group_idle "idoit:default:commands_locked" (toJSON result_x) = true
   ∧ state_at store_group_idle "idoit:g" = idle
   ∧ field_at store_group_idle "idoit:g" "children_finished" = Some (JNum 0))
  ∧ ∃ w',
      run (GroupTemplate.handleCommand_result group_xy result_x)
        (world_at store_group_idle) = (inr tt, w')
      ∧ field_at (w_store w') "idoit:g" "children_finished" = Some (JNum 1)
      ∧ score_at (w_store w') "idoit:default:commands"
          (toJSON (command_to "g" "group_check" None)) = Some 100.
Proof.
  assert (in_zset store_group_idle "idoit:default:commands_locked"
            (toJSON result_x) = true) as H1 by (vm_compute; reflexivity).
  assert (state_at store_group_idle "idoit:g" = idle) as H2 by (vm_compute; reflexivity).
  assert (field_at store_group_idle "idoit:g" "children_finished" = Some (JNum 0)) as H3
    by (vm_compute; reflexivity).
  split; [done|].
  destruct (group_result_counts_and_checks group_xy result_x (world_at store_group_idle)
              0 H1 H2 H3) as (t & w' & Hrun & _ & _ & _ & Hc & Hs & _).
  exists w'. split; [exact Hrun|]. split; [exact Hc|exact Hs].
Defined.

Lemma chain_activate_moves_to_idle_witness :
  (in_zset store_waiting "idoit:default:commands_locked" (toJSON activate_c) = true
   ∧ state_at store_waiting "idoit:c" = waiting)
  ∧ ∃ t w',
      run (ChainTemplate.handleCommand_activate chain_waiting activate_c)
        (world_at store_waiting) = (inr tt, w')
      ∧ exec t = exec tx_activate
      ∧ state_at (w_store w') "idoit:c" = idle
      ∧ member_at (w_store w') "idoit:waiting" "c" = false
      ∧ member_at (w_store w') "idoit:idle" "c" = true.
Proof.
  assert (in_zset store_waiting "idoit:default:commands_locked"
            (toJSON activate_c) = true) as H1 by (vm_compute; reflexivity).
  assert (state_at store_waiting "idoit:c" = waiting) as H2 by (vm_compute; reflexivity).
  split; [done|].
  destruct (chain_activate_moves_to_idle chain_waiting activate_c (world_at store_waiting)
              H1 H2) as (t & w' & Hrun & _ & _ & Hx & Hst & Hw & Hi & _).
  exists t, w'. split; [exact Hrun|]. split; [exact Hx|].
  split; [exact Hst|]. split; [exact Hw|exact Hi].
Defined.



Lemma chain_advance_falsy_result_witness :
  ((children_finished chain_ab + 1 < length (children chain_ab))%nat
   ∧ data_result result_a0 = inr (Some (JNum 0))
   ∧ truthy (Some (JNum 0)) = false
   ∧ read_raw_task (store_ab result_a0 false) q0 "b" = None
   ∧ in_zset (store_ab result_a0 false) "idoit:default:commands_locked"
       (toJSON result_a0) = true
   ∧ state_at (store_ab result_a0 false) "idoit:c" = idle)
  ∧ ∃ t w',
      run (ChainTemplate.handleCommand_result chain_ab result_a0)
        (world_at (store_ab result_a0 false)) = (inr tt, w')
      ∧ exec t = [ hincrby "idoit:c" "children_finished" 1 ]
      ∧ field_at (w_store w') "idoit:c" "children_finished" = Some (JNum 1).
Proof.
  assert ((children_finished chain_ab + 1 < length (children chain_ab))%nat) as H1
    by (simpl; lia).
  assert (data_result result_a0 = inr (Some (JNum 0))) as H2 by reflexivity.
  assert (truthy (Some (JNum 0)) = false) as H3 by reflexivity.
  assert (read_raw_task (store_ab result_a0 false) q0 "b" = None) as H4
    by (vm_compute; reflexivity).
  assert (in_zset (store_ab result_a0 false) "idoit:default:commands_locked"
            (toJSON result_a0) = true) as H5 by (vm_compute; reflexivity).
  assert (state_at (store_ab result_a0 false) "idoit:c" = idle) as H6
    by (vm_compute; reflexivity).
  assert (field_at (store_ab result_a0 false) "idoit:c" "children_finished"
          = Some (JNum 0)) as H7 by (vm_compute; reflexivity).
  split; [done|].
  destruct (chain_advance_falsy_result chain_ab result_a0
              (world_at (store_ab result_a0 false)) (Some (JNum 0)) 0
              H1 H2 H3 H5 H6 H7) as (t & w' & Hrun & _ & _ & Hx & Hc & _).
  exists t, w'. split; [exact Hrun|]. split; [|exact Hc].
  rewrite Hx. vm_compute. reflexivity.
Defined.

Lemma chain_advance_throws_without_args_witness :
  ((children_finished chain_ab + 1 < length (children chain_ab))%nat
   ∧ data_result result_a7 = inr (Some (JNum 7))
   ∧ truthy (Some (JNum 7)) = true
   ∧ field_at (store_ab result_a7 false) "idoit:b" "args" = None)
  ∧ fst (run (ChainTemplate.handleCommand_result chain_ab result_a7)
           (world_at (store_ab result_a7 false)))
    = inl (TypeError "Cannot read properties of null (reading 'concat')")
  ∧ w_store (snd (run (ChainTemplate.handleCommand_result chain_ab result_a7)
                    (world_at (store_ab result_a7 false))))
    = store_ab result_a7 false.
Proof.
  assert ((children_finished chain_ab + 1 < length (children chain_ab))%nat) as H1
    by (simpl; lia).
  assert (data_result result_a7 = inr (Some (JNum 7))) as H2 by reflexivity.
  assert (truthy (Some (JNum 7)) = true) as H3 by reflexivity.
  assert (field_at (store_ab result_a7 false) "idoit:b" "args" = None) as H4
    by (vm_compute; reflexivity).
  split; [done|].
  rewrite (chain_advance_throws_without_args chain_ab result_a7
             (world_at (store_ab result_a7 false)) (Some (JNum 7)) H1 H2 H3 (or_introl H4)).
  by split.
Defined.

Lemma handler_writes_frame_witness :
  (handler chain_waiting activate_c "waiting"
     (ChainTemplate.handleCommand_activate chain_waiting activate_c)
   ∧ submits (ChainTemplate.handleCommand_activate chain_waiting activate_c) tx_activate
   ∧ ¬ may_write chain_waiting "idoit:a" "args")
  ∧ field_at (eval_transaction tx_activate store_waiting).2 "idoit:a" "args"
    = field_at store_waiting "idoit:a" "args"
  ∧ field_at (w_store (run racer (world_at store_waiting)).2) "idoit:a" "args"
    = field_at store_waiting "idoit:a" "args".
Proof.
  assert (¬ may_write chain_waiting "idoit:a" "args") as H.
  { intros [[He _]|[He _]]; vm_compute in He; discriminate. }
  split; [split; [apply chain_activate|split; [apply tx_activate_submitted|exact H]]|].
  split.
  - apply (proj1 (handler_writes_frame chain_waiting activate_c "waiting" _
                    (chain_activate _ _)) tx_activate store_waiting
             tx_activate_submitted); exact H.
  - apply (proj2 (handler_writes_frame chain_waiting activate_c "waiting" _
                    (chain_activate _ _)) (world_at store_waiting)); exact H.
Defined.

Lemma handler_keeps_commands_witness :
  (handler chain_ab result_a7 "idle" (ChainTemplate.handleCommand_result chain_ab result_a7)
   ∧ submits (ChainTemplate.handleCommand_result chain_ab result_a7) tx_advance
   ∧ is_Some (score_at store_two_locked "idoit:default:commands_locked"
                (toJSON result_z7))
   ∧ ¬ ("idoit:default:commands_locked" = "idoit:default:commands_locked"
        ∧ toJSON result_z7 = toJSON result_a7))
  ∧ (eval_transaction tx_advance store_two_locked).1 = Committed
  ∧ score_at (eval_transaction tx_advance store_two_locked).2
      "idoit:default:commands_locked" (toJSON result_a7) = None
  ∧ is_Some (score_at (eval_transaction tx_advance store_two_locked).2
               "idoit:default:commands_locked" (toJSON result_z7))
  ∧ is_Some (score_at (w_store (run (ChainTemplate.handleCommand_result chain_ab result_a7)
                                  (world_at store_two_locked)).2)
               "idoit:default:commands_locked" (toJSON result_z7)).
Proof.
  assert (is_Some (score_at store_two_locked "idoit:default:commands_locked"
                     (toJSON result_z7))) as H1 by (vm_compute; eauto).
  assert (¬ ("idoit:default:commands_locked" = "idoit:default:commands_locked"
             ∧ toJSON result_z7 = toJSON result_a7)) as H2.
  { intros [_ He]. vm_compute in He. discriminate. }
  split; [split; [apply chain_result|split; [apply tx_advance_submitted|by split]]|].
  split; [vm_compute; reflexivity|]. split; [vm_compute; reflexivity|]. split.
  - apply (proj1 (proj1 (handler_keeps_commands chain_ab result_a7 "idle" _
                           (chain_result _ _)) tx_advance store_two_locked
                    tx_advance_submitted) _ _ H1 H2).
  - apply (proj1 (proj2 (handler_keeps_commands chain_ab result_a7 "idle" _
                           (chain_result _ _)) (world_at store_two_locked)) _ _ H1 H2).
Defined.

Lemma tx_advance_composite : composite_transaction tx_advance.
Proof.
  exists chain_ab, result_a7, "idle". eexists.
  split; [apply chain_result | apply tx_advance_submitted].
Qed.

Lemma counter_counts_commits_witness :
  (Forall composite_transaction [ tx_advance; tx_activate; tx_advance ]
   ∧ field_at (store_ab result_a7 true) "idoit:c" "children_finished" = Some (JNum 0))
  ∧ increments "idoit:c"
      (run_transactions [ tx_advance; tx_activate; tx_advance ] (store_ab result_a7 true)).1
    = 1%nat
  ∧ field_at
      (run_transactions [ tx_advance; tx_activate; tx_advance ] (store_ab result_a7 true)).2
      "idoit:c" "children_finished"
    = Some (JNum 1).
Proof.
  assert (Forall composite_transaction [ tx_advance; tx_activate; tx_advance ]) as H1.
  { repeat constructor; first [apply tx_advance_composite | apply tx_activate_composite]. }
  assert (field_at (store_ab result_a7 true) "idoit:c" "children_finished"
          = Some (JNum 0)) as H2 by (vm_compute; reflexivity).
  assert (increments "idoit:c"
            (run_transactions [ tx_advance; tx_activate; tx_advance ]
               (store_ab result_a7 true)).1 = 1%nat) as H3 by (vm_compute; reflexivity).
  split; [done|]. split; [exact H3|].
  rewrite (proj1 (counter_counts_commits "idoit:c" 0) _ _ H1 H2), H3. reflexivity.
Defined.

Lemma unlocked_command_changes_nothing_witness :
  (handler chain_waiting activate_c "waiting" racer
   ∧ in_zset (w_store (run racer (world_at store_waiting)).2)
       "idoit:default:commands_locked" (toJSON activate_c) = false)
  ∧ state_at (w_store (run racer (world_at store_waiting)).2) "idoit:c" = idle
  ∧ w_store (run racer (run racer (world_at store_waiting)).2).2
    = w_store (run racer (world_at store_waiting)).2.
Proof.
  assert (in_zset (w_store (run racer (world_at store_waiting)).2)
            "idoit:default:commands_locked" (toJSON activate_c) = false) as H
    by (vm_compute; reflexivity).
  split; [split; [apply chain_activate|exact H]|].
  split; [vm_compute; reflexivity|].
  apply (unlocked_command_changes_nothing chain_waiting activate_c "waiting" racer
           (run racer (world_at store_waiting)).2 (chain_activate _ _) H).
Defined.

Lemma redelivery_changes_nothing_witness :
  (handler chain_waiting activate_c "waiting" racer
   ∧ w_store (run racer (world_at store_waiting)).2 ≠ store_waiting)
  ∧ w_store (run racer (run racer (world_at store_waiting)).2).2
    = w_store (run racer (world_at store_waiting)).2.
Proof.
  assert (w_store (run racer (world_at store_waiting)).2 ≠ w_store (world_at store_waiting))
    as H.
  { intros He. apply (f_equal (fun s => state_at s "idoit:c")) in He.
    vm_compute in He. discriminate. }
  split; [split; [apply chain_activate|exact H]|].
  apply (redelivery_changes_nothing chain_waiting chain_waiting activate_c
           "waiting" "waiting" racer racer (world_at store_waiting)
           (run racer (world_at store_waiting)).2 []
           (chain_activate _ _) (chain_activate _ _) eq_refl eq_refl
           (List.Forall_nil _) H eq_refl).
Defined.

Lemma end_events_iff_finished_witness :
  handler chain_last result_b "idle" (ChainTemplate.handleCommand_result chain_last result_b)
  ∧ ∃ pre,
      Forall (fun ev => is_end ev = false) pre
      ∧ ((w_events (run (ChainTemplate.handleCommand_result chain_last result_b)
                      (world_at store_last)).2 = pre
          ∧ (state_at (w_store (run (ChainTemplate.handleCommand_result chain_last result_b)
                                  (world_at store_last)).2) "idoit:c" = finished →
             state_at store_last "idoit:c" = finished))
         ∨ (w_events (run (ChainTemplate.handleCommand_result chain_last result_b)
                        (world_at store_last)).2 = (pre ++ end_events chain_last)%list
            ∧ state_at store_last "idoit:c" = idle
            ∧ state_at (w_store (run (ChainTemplate.handleCommand_result chain_last result_b)
                                   (world_at store_last)).2) "idoit:c" = finished)).
Proof.
  split; [apply chain_result|].
  apply (end_events_iff_finished chain_last result_b "idle" _ (world_at store_last)
           (chain_result _ _)).
Defined.

Lemma one_evaluation_per_run_witness :
  handler chain_waiting activate_c "waiting" racer
  ∧ ∃ reads,
      Forall (fun c => is_eval c = false) reads
      ∧ (w_calls (run racer (world_at store_waiting)).2 = reads
         ∨ ∃ t, submits racer t
                ∧ w_calls (run racer (world_at store_waiting)).2
                  = (reads ++ [ CallEval t ])%list).
Proof.
  split; [apply chain_activate|].
  apply (one_evaluation_per_run chain_waiting activate_c "waiting" racer
           (world_at store_waiting) (chain_activate _ _)).
Defined.

Lemma prepare_links_and_sums_witness :
  (children_to_init (construct blank (TaskList (leaf "a" 1) [ leaf "b" 2 ])) None ≠ []
   ∧ map prepared
       (children_to_init (construct blank (TaskList (leaf "a" 1) [ leaf "b" 2 ])) None)
     = map inr [ leaf_task "a" 1; leaf_task "b" 2 ]
   ∧ Forall safe_integer (running_totals [ leaf_task "a" 1; leaf_task "b" 2 ]))
  ∧ (∃ me kids,
       run (ChainTemplate.prepare (construct blank (TaskList (leaf "a" 1) [ leaf "b" 2 ]))
              "c" (inr None)) (world_at empty_store) = (inr (me, kids), world_at empty_store)
       ∧ children me = [ "a"; "b" ] ∧ total me = 3 ∧ result me = None)
  ∧ (∃ me kids,
       run (GroupTemplate.prepare (construct blank (TaskList (leaf "a" 1) [ leaf "b" 2 ]))
              "g" (inr None)) (world_at empty_store) = (inr (me, kids), world_at empty_store)
       ∧ children me = [ "a"; "b" ] ∧ total me = 3 ∧ result me = Some (JArr [])).
Proof.
  assert (children_to_init (construct blank (TaskList (leaf "a" 1) [ leaf "b" 2 ])) None
          ≠ []) as H1 by done.
  assert (map prepared
            (children_to_init (construct blank (TaskList (leaf "a" 1) [ leaf "b" 2 ])) None)
          = map inr [ leaf_task "a" 1; leaf_task "b" 2 ]) as H2 by reflexivity.
  assert (Forall safe_integer (running_totals [ leaf_task "a" 1; leaf_task "b" 2 ])) as H3.
  { repeat constructor; vm_compute; reflexivity. }
  split; [done|]. split.
  - destruct (proj1 (prepare_links_and_sums _ "c" None _ (world_at empty_store) H1 H2 H3))
      as (me & kids & Hrun & (_ & Hc & _ & _ & Ht & _) & Hr).
    exists me, kids. split; [exact Hrun|]. split; [exact Hc|]. split; [exact Ht|exact Hr].
  - destruct (proj2 (prepare_links_and_sums _ "g" None _ (world_at empty_store) H1 H2 H3))
      as (me & kids & Hrun & (_ & Hc & _ & _ & Ht & _) & Hr).
    exists me, kids. split; [exact Hrun|]. split; [exact Hc|]. split; [exact Ht|exact Hr].
Defined.

Lemma prepare_succeeds_iff_witness :
  (@inl JsError (option (list ChildTemplate)) (Error "boom") = inl (Error "boom"))
  ∧ (run (ChainTemplate.prepare (construct blank (TaskList (leaf "a" 1) [ leaf "b" 2 ]))
            "c" (inl (Error "boom"))) (world_at empty_store)).1 = inl (Error "boom")
  ∧ (run (GroupTemplate.prepare (construct blank (TaskList (leaf "a" 1) [ leaf "b" 2 ]))
            "c" (inl (Error "boom"))) (world_at empty_store)).1 = inl (Error "boom").
Proof.
  split; [reflexivity|].
  apply (proj2 (proj2 (proj2 (proj2
           (prepare_succeeds_iff (construct blank (TaskList (leaf "a" 1) [ leaf "b" 2 ]))
              "c" (inl (Error "boom")) (world_at empty_store)))))
           (Error "boom") eq_refl).
Defined.

